(** * Verification of [check_locales.py]

    A shallow embedding of [.github/scripts/check_locales.py], the script that
    checks translated WebExtension message catalogs against a reference
    locale, and the proofs of the properties its specification states.

    Conventions of the embedding:
    - a Python [str] is a [string] holding its UTF-8 encoding.  Substring
      search, the ASCII-only placeholder pattern and the code point order
      used by [sorted] all commute with UTF-8 encoding;
    - a Python [dict] whose iteration order is observable (the message
      catalogs) is an insertion-ordered association list, [pydict]; the
      exceptions mapping, which is only queried, is a [gmap];
    - what the script reads from disk is a [filesystem] value; every access
      to it and every [print] is logged as an [event], so that the order of
      the script's actions can be stated;
    - a Python exception is a value of [exn]; pure code that may raise lives
      in [result], code that also touches the outside world in [io]. *)

From Stdlib Require Import Ascii String ZArith.
From stdpp Require Import base strings list gmap sorting.


(** ** Strings *)

(** The escape [\n] of the script's string literals. *)
Definition nl : string := String "010"%char "".

(** The pilcrow sign, U+00B6, as its two UTF-8 bytes. *)
Definition pilcrow : string := String "194"%char (String "182"%char "").

(** [needle in s] on strings. *)
Fixpoint str_contains (needle s : string) : bool :=
  String.prefix needle s ||
  match s with
  | "" => false
  | String _ s' => str_contains needle s'
  end.

(** [s.startswith(p)]. *)
Definition startswith (s p : string) : bool := String.prefix p s.

(** [sep.join(ls)]. *)
Definition join (sep : string) (ls : list string) : string :=
  String.concat sep ls.

(** [sorted(l)] and [l.sort()] on lists of strings: Python compares strings
    by code point, which on UTF-8 encodings is the bytewise order. *)
Definition sorted (l : list string) : list string := merge_sort String.le l.

(** ** The placeholder pattern [\$([a-zA-Z0-9_@]+)\$] *)

Definition in_range (lo hi c : ascii) : bool :=
  (Ascii.leb lo c && Ascii.leb c hi)%bool.

(** The character class [[a-zA-Z0-9_@]]. *)
Definition is_name_char (c : ascii) : bool :=
  (in_range "a" "z" c || in_range "A" "Z" c || in_range "0" "9" c
   || Ascii.eqb c "_" || Ascii.eqb c "@")%bool.

(** The longest run of class characters at the head of [s], and what
    follows it: the greedy [[...]+]. *)
Fixpoint span_name (s : string) : string * string :=
  match s with
  | String c s' =>
      if is_name_char c
      then let '(name, rest) := span_name s' in (String c name, rest)
      else ("", s)
  | "" => ("", "")
  end.

(** One attempt of the pattern at the head of [s]: the captured group and
    the text after the match.  The class excludes [$], so giving characters
    of the greedy run back can never make the closing [\$] match: the
    attempt succeeds exactly when the longest run is non-empty and a [$]
    follows it. *)
Definition match_here (s : string) : option (string * string) :=
  match s with
  | String c s' =>
      if Ascii.eqb c "$" then
        match span_name s' with
        | (String n name, String d rest) =>
            if Ascii.eqb d "$" then Some (String n name, rest) else None
        | _ => None
        end
      else None
  | "" => None
  end.

(** The scan of [findall]: [skip] counts the characters of the last match
    still to be stepped over, the search resuming right after it. *)
Fixpoint scan (skip : nat) (s : string) : list string :=
  match s with
  | "" => []
  | String _ s' =>
      match skip with
      | S k => scan k s'
      | O =>
          match match_here s with
          | Some (name, _) => name :: scan (S (String.length name)) s'
          | None => scan 0 s'
          end
      end
  end.

(** [placeholder_pattern.findall(s)]: the pattern has one group, so the
    result lists the captured names. *)
Definition findall (s : string) : list string := scan 0 s.

(** ** Dictionaries with insertion order *)

Abbreviation pydict V := (list (string * V)) (only parsing).

(** [d[k]], [None] standing for [KeyError]. *)
Fixpoint dict_get {V} (k : string) (d : pydict V) : option V :=
  match d with
  | [] => None
  | (k', v) :: d' => if decide (k' = k) then Some v else dict_get k d'
  end.

(** [k in d]. *)
Definition dict_mem {V} (k : string) (d : pydict V) : bool :=
  bool_decide (is_Some (dict_get k d)).

(** [d[k] = v]: a key already present keeps its position and takes the new
    value, a new key goes last. *)
Fixpoint dict_set {V} (k : string) (v : V) (d : pydict V) : pydict V :=
  match d with
  | [] => [(k, v)]
  | (k', v') :: d' =>
      if decide (k' = k) then (k', v) :: d' else (k', v') :: dict_set k v d'
  end.

Definition dict_keys {V} (d : pydict V) : list string := d.*1.

(** ** Exceptions and the two effect layers *)

Inductive exn : Type :=
  | KeyError (key : string)
  | JSONDecodeError
  | SystemExit (arg : string + Z).

Inductive result (A : Type) : Type :=
  | Ok (a : A)
  | Raise (e : exn).
Arguments Ok {A} a.
Arguments Raise {A} e.

(** The computation ended without raising. *)
Definition is_Ok {A} (r : result A) : Prop := ∃ a, r = Ok a.

#[global] Instance result_ret : MRet result := λ A a, Ok a.
#[global] Instance result_bind : MBind result := λ A B f m,
  match m with
  | Ok a => f a
  | Raise e => Raise e
  end.

(** What the script does to the outside world, in the order it does it. *)
Inductive event : Type :=
  | EIsDir (name : string)
  | EGlob (locale : string)
  | ELoad (locale file_id : string)
  | EIsFile (path : string)
  | ELoadExceptions
  | EWalk
  | EPrint (line : string).

Definition io (A : Type) : Type := list event → result A * list event.

#[global] Instance io_ret : MRet io := λ A a tr, (Ok a, tr).
#[global] Instance io_bind : MBind io := λ A B f m tr,
  match m tr with
  | (Ok a, tr') => f a tr'
  | (Raise e, tr') => (Raise e, tr')
  end.

Definition emit (e : event) : io () := λ tr, (Ok (), tr ++ [e]).
Definition io_raise {A} (e : exn) : io A := λ tr, (Raise e, tr).
Definition lift {A} (r : result A) : io A := λ tr, (r, tr).

(** A [for] loop whose body updates the loop state and may raise. *)
Fixpoint for_each {M : Type → Type} `{!MRet M, !MBind M} {A S}
    (xs : list A) (body : A → S → M S) (s : S) : M S :=
  match xs with
  | [] => mret s
  | x :: xs' => s' ← body x s; for_each xs' body s'
  end.

(** ** What the script reads *)

(** The value of one message id in a catalog file: the [message] field and
    the keys of the optional [placeholders] object, in file order.  The
    type takes the file format at its word: the value is an object, the
    message a string, the placeholders an object. *)
Record message_data : Type := {
  md_message : option string;
  md_placeholders : option (list string);
}.

(** What [json.load] makes of a catalog file: it raises, or returns the
    items of the top-level object. *)
Inductive json_file : Type :=
  | Malformed
  | Parsed (json_data : list (string * message_data)).

(** [check_exceptions.json]: top-level key, then locale, then the message
    keys listed under it (their values are never looked at). *)
Inductive exceptions_file : Type :=
  | ExceptionsAbsent
  | ExceptionsMalformed
  | ExceptionsParsed (d : gmap string (gmap string (gset string))).

(** The directory tree under [base_path] and the file next to the script.
    File names are relative to their locale's folder, as [os.path.relpath]
    makes them. *)
Record filesystem : Type := {
  fs_isdir : string → bool;
  fs_subdirs : list string;
  fs_glob : string → list string;
  fs_json : string → string → json_file;
  fs_exception_path : string;
  fs_exceptions : exceptions_file;
}.

Definition os_path_isdir (fs : filesystem) (name : string) : io bool :=
  emit (EIsDir name);; mret (fs_isdir fs name).

Definition glob_json (fs : filesystem) (locale : string) : io (list string) :=
  emit (EGlob locale);; mret (fs_glob fs locale).

Definition json_load (fs : filesystem) (locale file_id : string)
    : io (list (string * message_data)) :=
  emit (ELoad locale file_id);;
  match fs_json fs locale file_id with
  | Malformed => io_raise JSONDecodeError
  | Parsed json_data => mret json_data
  end.

Definition os_path_isfile_exceptions (fs : filesystem) : io bool :=
  emit (EIsFile (fs_exception_path fs));;
  mret (match fs_exceptions fs with ExceptionsAbsent => false | _ => true end).

Definition json_load_exceptions (fs : filesystem)
    : io (gmap string (gmap string (gset string))) :=
  emit ELoadExceptions;;
  match fs_exceptions fs with
  | ExceptionsParsed d => mret d
  | _ => io_raise JSONDecodeError
  end.

Definition os_walk_dirs (fs : filesystem) : io (list string) :=
  emit EWalk;; mret (fs_subdirs fs).

Definition print (line : string) : io () := emit (EPrint line).

Definition sys_exit {A} (arg : string + Z) : io A := io_raise (SystemExit arg).

(** ** [parseJsonFiles] *)

Record message : Type := {
  text : string;
  placeholders : list string;
}.

(** The body of the loop over [json_data.items()]. *)
Definition store_message (file_id : string)
    (item : string * message_data) (messages : pydict message)
    : result (pydict message) :=
  let '(message_id, message_data) := item in
  match md_message message_data with
  | None => Raise (KeyError "message")
  | Some text =>
      let placeholders :=
        match md_placeholders message_data with
        | Some keys => keys
        | None => []
        end in
      Ok (dict_set (file_id +:+ ":" +:+ message_id)
            {| text := text; placeholders := placeholders |} messages)
  end.

(** [parseJsonFiles(base_path, messages, locale)]; the dictionary the
    script updates in place is passed in and returned. *)
Definition parseJsonFiles (fs : filesystem) (messages : pydict message)
    (locale : string) : io (pydict message) :=
  file_list ← glob_json fs locale;
  for_each file_list (λ file_id messages,
    json_data ← json_load fs locale file_id;
    lift (for_each json_data (store_message file_id) messages)) messages.

(** ** [main] *)

Definition placeholder_error (locale message_id l10n_message : string) : string :=
  locale +:+ ":" +:+ nl +:+ "  Placeholder mismatch in " +:+ message_id
    +:+ nl +:+ "  Text: " +:+ l10n_message.

Definition pilcrow_error (locale message_id l10n_message : string) : string :=
  locale +:+ ":" +:+ nl +:+ "  '" +:+ pilcrow +:+ "' in " +:+ message_id
    +:+ nl +:+ "  Text: " +:+ l10n_message.

(** The list comprehension that selects the locales to check. *)
Definition select_locales (subdirs : list string) (reference_locale : string)
    : list string :=
  filter (λ f, negb (startswith f ".") ∧ f ≠ reference_locale) subdirs.

(** The dictionary comprehension [messages_with_placeholders]: an empty
    list is falsy. *)
Definition messages_with_placeholders (reference_messages : pydict message)
    : pydict (list string) :=
  foldl (λ d '(k, v),
    match placeholders v with
    | [] => d
    | _ :: _ => dict_set k (placeholders v) d
    end) [] reference_messages.

(** [message_id in exceptions["placeholders"].get(locale, {})]. *)
Definition known_exception (exceptions : gmap string (gmap string (gset string)))
    (locale message_id : string) : result bool :=
  match exceptions !! "placeholders" with
  | None => Raise (KeyError "placeholders")
  | Some by_locale =>
      Ok (bool_decide (message_id ∈ default ∅ (by_locale !! locale)))
  end.

(** The body of the loop "Check for missing placeholders". *)
Definition check_placeholders
    (exceptions : gmap string (gmap string (gset string)))
    (locale : string) (locale_messages : pydict message)
    (item : string * list string) (errors : list string)
    : result (list string) :=
  let '(message_id, placeholders) := item in
  if negb (dict_mem message_id locale_messages) then Ok errors
  else
    known ← known_exception exceptions locale message_id;
    if (known : bool) then Ok errors
    else
      match dict_get message_id locale_messages with
      | None => Raise (KeyError message_id)
      | Some m =>
          let l10n_message := text m in
          let l10n_placeholders := findall l10n_message in
          if bool_decide (sorted placeholders ≠ sorted l10n_placeholders)
          then Ok (errors ++ [placeholder_error locale message_id l10n_message])
          else Ok errors
      end.

(** The body of the loop "Check for pilcrows". *)
Definition check_pilcrow (locale : string)
    (item : string * message) (errors : list string) : result (list string) :=
  let '(message_id, message_data) := item in
  let l10n_message := text message_data in
  if str_contains pilcrow (text message_data)
  then Ok (errors ++ [pilcrow_error locale message_id l10n_message])
  else Ok errors.

(** The body of [for locale in locales]. *)
Definition check_locale (fs : filesystem)
    (exceptions : gmap string (gmap string (gset string)))
    (with_placeholders : pydict (list string))
    (locale : string) (errors : list string) : io (list string) :=
  locale_messages ← parseJsonFiles fs [] locale;
  errors ← lift (for_each with_placeholders
                   (check_placeholders exceptions locale locale_messages) errors);
  lift (for_each locale_messages (check_pilcrow locale) errors).

(** The report that ends [main]. *)
Definition report (errors : list string) : io () :=
  match errors with
  | _ :: _ =>
      print "ERRORS:";;
      print (join nl errors);;
      sys_exit (inr 1%Z)
  | [] => print "No errors found."
  end.

(** [main()] up to the report, after [argparse] has produced
    [reference_locale] and with the tree under [base_path] in [fs]: the
    error list the script has collected when the loop over the locales
    ends. *)
Definition main_checks (fs : filesystem) (reference_locale : string)
    : io (list string) :=
  ref_exists ← os_path_isdir fs reference_locale;
  if negb ref_exists then
    sys_exit (inl ("The folder for the reference locale ("
                     +:+ reference_locale +:+ ") does not exist"))
  else
    reference_messages ← parseJsonFiles fs [] reference_locale;
    has_exceptions ← os_path_isfile_exceptions fs;
    exceptions ←
      (if (has_exceptions : bool) then json_load_exceptions fs
       else print (fs_exception_path fs +:+ " is missing");; mret ∅);
    let errors := [] in
    subdirs ← os_walk_dirs fs;
    let locales := sorted (select_locales subdirs reference_locale) in
    let with_placeholders := messages_with_placeholders reference_messages in
    for_each locales (check_locale fs exceptions with_placeholders) errors.

(** [main()]. *)
Definition main (fs : filesystem) (reference_locale : string) : io () :=
  errors ← main_checks fs reference_locale;
  report errors.

(** The optional [--ref] argument and its default. *)
Definition ref_locale_arg (ref : option string) : string := default "en" ref.

(** ** The process, seen from outside *)

(** Running the script from an empty log. *)
Definition run (fs : filesystem) (reference_locale : string)
    : result () * list event :=
  main fs reference_locale [].

(** The exit status: [sys.exit(n)] gives [n]; [sys.exit] with a message, and
    any uncaught exception, give 1. *)
Definition exit_status (r : result ()) : Z :=
  match r with
  | Ok _ => 0
  | Raise (SystemExit (inr n)) => n
  | Raise _ => 1
  end.

(** The message [sys.exit] writes to standard error. *)
Definition exit_message (r : result ()) : option string :=
  match r with
  | Raise (SystemExit (inl msg)) => Some msg
  | _ => None
  end.

(** The lines printed to standard output. *)
Definition stdout (tr : list event) : list string :=
  omap (λ e, match e with EPrint line => Some line | _ => None end) tr.

(** The locale folders whose catalogs were enumerated, in order. *)
Definition globbed (tr : list event) : list string :=
  omap (λ e, match e with EGlob locale => Some locale | _ => None end) tr.

(** The catalog files opened, in order. *)
Definition loaded (tr : list event) : list (string * string) :=
  omap (λ e, match e with ELoad locale f => Some (locale, f) | _ => None end) tr.

(** ** Specification-side definitions

    These follow the wording of the specification, not the script; the
    theorems below compare the script with them. *)

(** A non-empty run of characters of the class. *)
Inductive Name : string → Prop :=
  | Name_one c : is_name_char c → Name (String c "")
  | Name_cons c s : is_name_char c → Name s → Name (String c s).

(** [s] begins with a token [$name$] and goes on with [rest]. *)
Inductive Match : string → string → string → Prop :=
  | Match_intro name rest :
      Name name → Match ("$" +:+ name +:+ "$" +:+ rest) name rest.

(** The tokens of a text: the matches taken left to right, each search
    resuming where the previous match ended. *)
Inductive Tokens : string → list string → Prop :=
  | Tokens_end : Tokens "" []
  | Tokens_match s name rest l :
      Match s name rest → Tokens rest l → Tokens s (name :: l)
  | Tokens_skip c s l :
      (∀ name rest, ¬ Match (String c s) name rest) →
      Tokens s l → Tokens (String c s) l.

(** What loading one catalog file does to the dictionary, without the
    log. *)
Definition load_file (fs : filesystem) (locale file_id : string)
    (messages : pydict message) : result (pydict message) :=
  match fs_json fs locale file_id with
  | Malformed => Raise JSONDecodeError
  | Parsed json_data => for_each json_data (store_message file_id) messages
  end.

(** The catalog of a locale as a value: what [parseJsonFiles] stores into
    an empty dictionary. *)
Definition read_catalog (fs : filesystem) (locale : string)
    : result (pydict message) :=
  for_each (fs_glob fs locale) (load_file fs locale) [].

(** The message a catalog entry stands for, if it has its required
    field. *)
Definition message_of (data : message_data) : option message :=
  text ← md_message data;
  Some {| text := text; placeholders := default [] (md_placeholders data) |}.

(** The checks of one locale as a value. *)
Definition locale_errors (fs : filesystem)
    (exceptions : gmap string (gmap string (gset string)))
    (with_placeholders : pydict (list string))
    (locale : string) (errors : list string) : result (list string) :=
  locale_messages ← read_catalog fs locale;
  errors ← for_each with_placeholders
             (check_placeholders exceptions locale locale_messages) errors;
  for_each locale_messages (check_pilcrow locale) errors.

(** The entries of one catalog file under their composite keys. *)
Definition entries (fs : filesystem) (locale file_id : string)
    : list (string * message_data) :=
  match fs_json fs locale file_id with
  | Malformed => []
  | Parsed json_data =>
      (λ '(message_id, data), (file_id +:+ ":" +:+ message_id, data))
        <$> json_data
  end.

(** Every entry of every catalog file of a locale, in the order the loader
    meets them. *)
Definition stored (fs : filesystem) (locale : string)
    : list (string * message_data) :=
  fs_glob fs locale ≫= entries fs locale.

(** Storing one entry under its composite key. *)
Definition assign (entry : string * message_data) (messages : pydict message)
    : result (pydict message) :=
  match message_of entry.2 with
  | Some m => Ok (dict_set entry.1 m messages)
  | None => Raise (KeyError "message")
  end.

(** The exceptions mapping the script works with: empty when the file is
    absent. *)
Definition loaded_exceptions (fs : filesystem)
    : result (gmap string (gmap string (gset string))) :=
  match fs_exceptions fs with
  | ExceptionsAbsent => Ok ∅
  | ExceptionsMalformed => Raise JSONDecodeError
  | ExceptionsParsed d => Ok d
  end.

(** What looking for the exceptions file adds to the log. *)
Definition exceptions_log (fs : filesystem) : list event :=
  EIsFile (fs_exception_path fs) ::
  match fs_exceptions fs with
  | ExceptionsAbsent => [EPrint (fs_exception_path fs +:+ " is missing")]
  | _ => [ELoadExceptions]
  end.

(** The locales the script checks, in the order it checks them. *)
Definition target_locales (fs : filesystem) (reference_locale : string)
    : list string :=
  sorted (select_locales (fs_subdirs fs) reference_locale).

(** The reference messages that declare placeholders, in catalog order. *)
Definition declared (reference_messages : pydict message)
    : pydict (list string) :=
  omap (λ '(k, r),
    match placeholders r with
    | [] => None
    | _ :: _ => Some (k, placeholders r)
    end) reference_messages.

(** The translated messages the placeholder check must report: those of a
    reference message that declares placeholders, not listed as an
    exception, whose tokens are not the declared placeholders as a
    multiset. *)
Definition placeholder_hits (listed : gset string)
    (locale_messages reference_messages : pydict message)
    : list (string * message) :=
  omap (λ '(k, r),
    match dict_get k locale_messages with
    | Some m =>
        if decide (placeholders r ≠ [] ∧ (k ∉ listed)
                   ∧ ¬ (placeholders r ≡ₚ findall (text m)))
        then Some (k, m) else None
    | None => None
    end) reference_messages.

(** The translated messages the pilcrow check must report. *)
Definition pilcrow_hits (locale_messages : pydict message)
    : list (string * message) :=
  filter (λ item, str_contains pilcrow (text item.2)) locale_messages.

Definition placeholder_record (locale : string) (hit : string * message)
    : string :=
  placeholder_error locale hit.1 (text hit.2).

Definition pilcrow_record (locale : string) (hit : string * message)
    : string :=
  pilcrow_error locale hit.1 (text hit.2).

(** The shape of an error record: locale, description and offending text on
    three lines. *)
Definition record_shaped (e : string) : Prop :=
  ∃ locale description l10n_message,
    e = locale +:+ ":" +:+ nl +:+ "  " +:+ description
          +:+ nl +:+ "  Text: " +:+ l10n_message.

(** A locale whose catalog loads: every file parses and every entry has
    its [message] field. *)
Definition well_formed_catalog (fs : filesystem) (locale : string) : Prop :=
  (∀ file_id, file_id ∈ fs_glob fs locale →
              fs_json fs locale file_id ≠ Malformed)
  ∧ (∀ e, e ∈ stored fs locale → is_Some (md_message e.2)).

(** ** Definitions for the properties of whole runs *)

(** The catalog of a locale that loads. *)
Definition catalog_of (fs : filesystem) (locale : string) : pydict message :=
  match read_catalog fs locale with
  | Ok locale_messages => locale_messages
  | Raise _ => []
  end.

(** The value of [main_checks] without the log. *)
Definition checks_result (fs : filesystem) (reference_locale : string)
    : result (list string) :=
  if fs_isdir fs reference_locale then
    reference_messages ← read_catalog fs reference_locale;
    exceptions ← loaded_exceptions fs;
    for_each (target_locales fs reference_locale)
      (locale_errors fs exceptions
         (messages_with_placeholders reference_messages)) []
  else
    Raise (SystemExit (inl ("The folder for the reference locale ("
                              +:+ reference_locale +:+ ") does not exist"))).

(** What the script has printed when the loop over the locales begins: the
    warning about the exceptions file, if it got that far and the file is
    absent. *)
Definition warning_lines (fs : filesystem) (reference_locale : string)
    : list string :=
  if fs_isdir fs reference_locale then
    match read_catalog fs reference_locale with
    | Ok _ => stdout (exceptions_log fs)
    | Raise _ => []
    end
  else [].

(** The lines of the final report. *)
Definition report_lines (errors : list string) : list string :=
  match errors with
  | [] => ["No errors found."]
  | _ :: _ => ["ERRORS:"; join nl errors]
  end.

(** The records of one locale: those of the placeholder check, then those
    of the pilcrow check. *)
Definition locale_records (listed : gset string)
    (reference_messages locale_messages : pydict message) (locale : string)
    : list string :=
  (placeholder_record locale
     <$> placeholder_hits listed locale_messages reference_messages)
  ++ (pilcrow_record locale <$> pilcrow_hits locale_messages).

(** The exceptions the loader can raise. *)
Definition loader_exn (e : exn) : Prop :=
  e = JSONDecodeError ∨ e = KeyError "message".

(** A record about a given locale. *)
Definition record_of (locale e : string) : Prop :=
  ∃ description l10n_message,
    e = locale +:+ ":" +:+ nl +:+ "  " +:+ description
          +:+ nl +:+ "  Text: " +:+ l10n_message.

(** The number of [$] in a text. *)
Fixpoint count_dollar (s : string) : nat :=
  match s with
  | "" => 0
  | String c s' => (if Ascii.eqb c "$" then 1 else 0) + count_dollar s'
  end.

(** The characters a token takes from the text: its name and the two
    [$]. *)
Definition token_width (name : string) : nat := String.length name + 2.

(** ** Example trees *)

Definition entry (text : string) (keys : option (list string)) : message_data :=
  {| md_message := Some text; md_placeholders := keys |}.

(** The example of the specification: a reference greeting with the
    placeholder [name]; French renames the placeholder, German keeps it and
    ends with a pilcrow, Italian does both. *)
Definition example_json (locale file_id : string) : json_file :=
  if decide (file_id = "greeting.json") then
    if decide (locale = "en") then
      Parsed [("hello", entry "Hello, $name$!" (Some ["name"]));
              ("bye", entry "Goodbye" None)]
    else if decide (locale = "fr") then
      Parsed [("hello", entry "Bonjour, $nom$!" None);
              ("bye", entry "Au revoir $vous$" None)]
    else if decide (locale = "de") then
      Parsed [("hello", entry ("Hallo, $name$!" +:+ pilcrow) None)]
    else if decide (locale = "it") then
      Parsed [("hello", entry ("Ciao, $nome$!" +:+ pilcrow) None)]
    else Parsed []
  else Malformed.

Definition example_fs (exceptions : exceptions_file) : filesystem := {|
  fs_isdir := λ name, bool_decide (name ∈ ["en"; "fr"; "de"; "it"; ".git"]);
  fs_subdirs := ["it"; "fr"; ".git"; "en"; "de"];
  fs_glob := λ locale, if decide (locale = ".git") then [] else ["greeting.json"];
  fs_json := example_json;
  fs_exception_path := "/repo/.github/scripts/check_exceptions.json";
  fs_exceptions := exceptions;
|}.

(** An exceptions file that lists the Italian greeting. *)
Definition example_by_locale : gmap string (gset string) :=
  {[ "it" := {[ "greeting.json:hello" ]} ]}.

Definition example_exceptions : gmap string (gmap string (gset string)) :=
  {[ "placeholders" := example_by_locale ]}.

Definition en_catalog : pydict message :=
  [("greeting.json:hello", {| text := "Hello, $name$!"; placeholders := ["name"] |});
   ("greeting.json:bye", {| text := "Goodbye"; placeholders := [] |})].

Definition fr_catalog : pydict message :=
  [("greeting.json:hello", {| text := "Bonjour, $nom$!"; placeholders := [] |});
   ("greeting.json:bye", {| text := "Au revoir $vous$"; placeholders := [] |})].

Definition it_catalog : pydict message :=
  [("greeting.json:hello",
    {| text := "Ciao, $nome$!" +:+ pilcrow; placeholders := [] |})].

(** Two files of one locale whose entries meet under one composite key. *)
Definition collision_fs : filesystem := {|
  fs_isdir := λ _, true;
  fs_subdirs := ["xx"];
  fs_glob := λ _, ["a.json"; "a.json:b.json"];
  fs_json := λ _ file_id,
    if decide (file_id = "a.json") then Parsed [("b.json:c", entry "first" None)]
    else Parsed [("c", entry "second" None)];
  fs_exception_path := "check_exceptions.json";
  fs_exceptions := ExceptionsAbsent;
|}.

(** A tree whose second catalog file is broken: unparsable in [en], an
    entry without its [message] field in [fr]. *)
Definition broken_fs : filesystem := {|
  fs_isdir := λ _, true;
  fs_subdirs := ["en"; "fr"];
  fs_glob := λ _, ["a.json"; "b.json"; "c.json"];
  fs_json := λ locale file_id,
    if decide (file_id = "b.json") then
      if decide (locale = "en") then Malformed
      else Parsed [("x", {| md_message := None; md_placeholders := None |})]
    else Parsed [("hello", entry "Hello" None)];
  fs_exception_path := "check_exceptions.json";
  fs_exceptions := ExceptionsParsed example_exceptions;
|}.

(** * Proofs *)

(** ** Strings *)

Section strings.
Implicit Types (s p name rest : string) (c : ascii).

Lemma str_app_nil_l s : "" +:+ s = s.
Proof. reflexivity. Qed.

Lemma str_app_nil_r s : s +:+ "" = s.
Proof.
  induction s as [|c s IH]; [done|].
  change (String c (s +:+ "") = String c s). by f_equal.
Qed.

Lemma str_app_cons c s1 s2 : String c s1 +:+ s2 = String c (s1 +:+ s2).
Proof. reflexivity. Qed.

Lemma str_app_assoc s1 s2 s3 : (s1 +:+ s2) +:+ s3 = s1 +:+ s2 +:+ s3.
Proof.
  induction s1 as [|c s1 IH]; [reflexivity|].
  rewrite !str_app_cons. by f_equal.
Qed.

Lemma str_length_app s1 s2 :
  String.length (s1 +:+ s2) = String.length s1 + String.length s2.
Proof.
  induction s1 as [|c s1 IH]; [reflexivity|].
  rewrite str_app_cons. simpl. by rewrite IH.
Qed.

Lemma prefix_spec p s : String.prefix p s = true ↔ ∃ rest, s = p +:+ rest.
Proof.
  revert s. induction p as [|c p IH]; intros s.
  - split; [intros _; exists s; reflexivity|]. by destruct s.
  - destruct s as [|d s]; simpl.
    + split; [done|]. intros [rest Hrest]. by rewrite str_app_cons in Hrest.
    + destruct (Ascii.ascii_dec c d) as [->|Hne].
      * rewrite IH. split; intros [rest Hrest]; exists rest.
        -- rewrite str_app_cons. by f_equal.
        -- rewrite str_app_cons in Hrest. by simplify_eq.
      * split; [done|]. intros [rest Hrest].
        rewrite str_app_cons in Hrest. by simplify_eq.
Qed.

Lemma str_contains_nil p : str_contains p "" = String.prefix p "".
Proof. unfold str_contains. apply orb_false_r. Qed.

Lemma str_contains_cons p c s :
  str_contains p (String c s)
  = String.prefix p (String c s) || str_contains p s.
Proof. reflexivity. Qed.

(** [str_contains needle s] holds exactly when [needle] occurs in [s]. *)
Lemma str_contains_spec p s :
  str_contains p s ↔ ∃ before after, s = before +:+ p +:+ after.
Proof.
  split.
  - induction s as [|c s IH].
    + rewrite str_contains_nil. intros H.
      apply Is_true_true, prefix_spec in H as [rest ->]. by exists "", rest.
    + rewrite str_contains_cons. intros [H|H]%orb_True.
      * apply Is_true_true, prefix_spec in H as [rest ->]. by exists "", rest.
      * destruct (IH H) as (before & after & ->).
        by exists (String c before), after.
  - intros (before & after & ->).
    induction before as [|c before IH].
    + rewrite str_app_nil_l.
      assert (String.prefix p (p +:+ after) = true) as Hp
        by (apply prefix_spec; eauto).
      destruct (p +:+ after) as [|c s].
      * rewrite str_contains_nil, Hp. done.
      * rewrite str_contains_cons, Hp. done.
    + rewrite str_app_cons, str_contains_cons. apply orb_True. by right.
Qed.

Lemma sorted_Permutation (l : list string) : sorted l ≡ₚ l.
Proof. apply merge_sort_Permutation. Qed.

Lemma Sorted_sorted (l : list string) : Sorted String.le (sorted l).
Proof. apply (Sorted_merge_sort String.le). Qed.

(** Comparing sorted copies is comparing multisets. *)
Lemma sorted_eq_iff (l1 l2 : list string) :
  sorted l1 = sorted l2 ↔ l1 ≡ₚ l2.
Proof.
  split.
  - intros Heq. by rewrite <-(sorted_Permutation l1), Heq, sorted_Permutation.
  - intros Hperm. apply (Sorted_unique String.le); auto using Sorted_sorted.
    by rewrite !sorted_Permutation.
Qed.
End strings.

(** ** The pattern *)

Section pattern.
Implicit Types (s name rest : string) (c : ascii).

Lemma dollar_not_name_char : is_name_char "$" = false.
Proof. reflexivity. Qed.

Lemma span_name_nil : span_name "" = ("", "").
Proof. reflexivity. Qed.

Lemma span_name_cons c s :
  span_name (String c s)
  = if is_name_char c then (String c (span_name s).1, (span_name s).2)
    else ("", String c s).
Proof. simpl. destruct (is_name_char c), (span_name s); reflexivity. Qed.

(** The run is a prefix of the text and holds class characters only. *)
Lemma span_name_sound s :
  s = (span_name s).1 +:+ (span_name s).2
  ∧ ((span_name s).1 = "" ∨ Name (span_name s).1).
Proof.
  induction s as [|c s [IHs IHn]]; [by auto|].
  rewrite span_name_cons. destruct (is_name_char c) eqn:Hc; simpl; [|by auto].
  split; [rewrite str_app_cons; by f_equal|].
  right. destruct IHn as [->|Hn]; constructor; by rewrite ?Hc.
Qed.

(** The run is the longest one: it stops at the first character outside
    the class. *)
Lemma span_name_app name c rest :
  Name name → is_name_char c = false →
  span_name (name +:+ String c rest) = (name, String c rest).
Proof.
  intros Hname Hc. induction Hname as [d Hd|d name Hd _ IH].
  - rewrite str_app_cons, str_app_nil_l, !span_name_cons.
    apply Is_true_true in Hd. by rewrite Hd, Hc.
  - rewrite str_app_cons, span_name_cons, IH.
    apply Is_true_true in Hd. by rewrite Hd.
Qed.

Lemma Name_nonempty name : Name name → ∃ c name', name = String c name'.
Proof. destruct 1; eauto. Qed.

(** An attempt succeeds exactly on the texts that begin with a token. *)
Lemma match_here_Match s name rest :
  match_here s = Some (name, rest) ↔ Match s name rest.
Proof.
  split.
  - destruct s as [|c s]; [done|]. unfold match_here.
    destruct (Ascii.eqb_spec c "$") as [->|]; [|done].
    destruct (span_name_sound s) as [Hs Hn].
    destruct (span_name s) as [[|n run] [|d after]]; simpl in *; try done.
    destruct (Ascii.eqb_spec d "$") as [->|]; [|done].
    intros [= <- <-]. rewrite Hs.
    destruct Hn as [|Hn]; [done|]. by apply (Match_intro _ _ Hn).
  - intros [name' rest' Hname].
    rewrite str_app_cons, str_app_nil_l. unfold match_here.
    rewrite Ascii.eqb_refl, str_app_cons, str_app_nil_l,
      (span_name_app _ _ _ Hname dollar_not_name_char).
    destruct (Name_nonempty _ Hname) as (c & name'' & ->).
    by rewrite Ascii.eqb_refl.
Qed.

(** At one position the pattern has at most one match, so the order in
    which a backtracking matcher tries the lengths of the greedy run
    cannot show. *)
Lemma Match_functional s name1 rest1 name2 rest2 :
  Match s name1 rest1 → Match s name2 rest2 →
  name1 = name2 ∧ rest1 = rest2.
Proof.
  intros H1%match_here_Match H2%match_here_Match.
  rewrite H1 in H2. by simplify_eq.
Qed.

Lemma scan_skip before s :
  scan (String.length before) (before +:+ s) = scan 0 s.
Proof.
  induction before as [|c before IH]; [reflexivity|].
  rewrite str_app_cons. simpl. apply IH.
Qed.

Lemma findall_nil : findall "" = [].
Proof. reflexivity. Qed.

Lemma findall_match s name rest :
  Match s name rest → findall s = name :: findall rest.
Proof.
  intros Hm. pose proof Hm as Hh%match_here_Match.
  destruct Hm as [name rest Hname].
  rewrite str_app_cons, str_app_nil_l in *. unfold findall at 1, scan; fold scan.
  rewrite Hh. f_equal.
  rewrite <-str_app_assoc.
  replace (S (String.length name)) with (String.length (name +:+ "$"))
    by (rewrite str_length_app; simpl; lia).
  apply scan_skip.
Qed.

Lemma findall_skip c s :
  match_here (String c s) = None → findall (String c s) = findall s.
Proof. intros Hh. unfold findall at 1, scan; fold scan. by rewrite Hh. Qed.

Lemma Match_length s name rest :
  Match s name rest → String.length rest < String.length s.
Proof. destruct 1. rewrite !str_length_app. simpl. lia. Qed.

(** [findall] returns the tokens of the text... *)
Lemma findall_Tokens s : Tokens s (findall s).
Proof.
  remember (String.length s) as n eqn:Hn.
  revert s Hn. induction (lt_wf n) as [n _ IH]. intros s ->.
  destruct s as [|c s]; [constructor|].
  destruct (match_here (String c s)) as [[name rest]|] eqn:Hh.
  - apply match_here_Match in Hh.
    rewrite (findall_match _ _ _ Hh).
    apply (Tokens_match _ _ _ _ Hh).
    by eapply IH; [apply (Match_length _ _ _ Hh)|].
  - rewrite (findall_skip _ _ Hh). apply Tokens_skip.
    + intros name rest Hm%match_here_Match. congruence.
    + by eapply IH; [simpl; apply Nat.lt_succ_diag_r|].
Qed.

(** ... and nothing else is. *)
Lemma Tokens_findall s l : Tokens s l ↔ findall s = l.
Proof.
  split; [|intros <-; apply findall_Tokens].
  induction 1 as [|s name rest l Hm _ IH|c s l Hno _ IH].
  - reflexivity.
  - by rewrite (findall_match _ _ _ Hm), IH.
  - rewrite findall_skip; [done|].
    destruct (match_here (String c s)) as [[name rest]|] eqn:Hh; [|done].
    by apply match_here_Match, Hno in Hh.
Qed.
End pattern.

(** ** Dictionaries *)

Section dict.
Context {V : Type}.
Implicit Types (d : pydict V) (k : string) (v : V).

Lemma dict_get_Some_elem k v d : dict_get k d = Some v → (k, v) ∈ d.
Proof.
  induction d as [|[k' v'] d IH]; simpl; [done|].
  case_decide; intros; simplify_eq; [left|right; auto].
Qed.

Lemma dict_get_None k d : dict_get k d = None ↔ k ∉ dict_keys d.
Proof.
  unfold dict_keys. induction d as [|[k' v'] d IH]; simpl.
  - split; [intros _; apply not_elem_of_nil|done].
  - rewrite not_elem_of_cons, <-IH.
    destruct (decide (k' = k)) as [->|]; [|by intuition].
    split; [done|]. by intros [? _].
Qed.

Lemma dict_get_is_Some k d : is_Some (dict_get k d) ↔ k ∈ dict_keys d.
Proof.
  rewrite <-not_eq_None_Some, dict_get_None.
  destruct (decide (k ∈ dict_keys d)); naive_solver.
Qed.

Lemma dict_mem_spec k d : dict_mem k d ↔ k ∈ dict_keys d.
Proof. unfold dict_mem. by rewrite bool_decide_spec, dict_get_is_Some. Qed.

Lemma dict_mem_false k d : dict_mem k d = false ↔ dict_get k d = None.
Proof.
  rewrite dict_get_None, <-dict_mem_spec. destruct (dict_mem k d); naive_solver.
Qed.

(** In a dictionary, an entry is what its key looks up. *)
Lemma dict_get_elem k v d :
  NoDup (dict_keys d) → (k, v) ∈ d → dict_get k d = Some v.
Proof.
  unfold dict_keys. induction d as [|[k' v'] d IH]; simpl.
  - by intros _ ?%elem_of_nil.
  - intros [Hk' Hd]%NoDup_cons [?|Hin]%elem_of_cons; simplify_eq.
    + by rewrite decide_True.
    + rewrite decide_False; [auto|]. intros ->.
      apply Hk'. apply list_elem_of_fmap. by exists (k, v).
Qed.

Lemma dict_get_set_eq k v d : dict_get k (dict_set k v d) = Some v.
Proof.
  induction d as [|[k' v'] d IH]; simpl.
  - by rewrite decide_True.
  - destruct (decide (k' = k)) as [->|Hne]; simpl.
    + by rewrite decide_True.
    + by rewrite decide_False.
Qed.

Lemma dict_get_set_ne k k' v d :
  k ≠ k' → dict_get k' (dict_set k v d) = dict_get k' d.
Proof.
  intros Hne. induction d as [|[k'' v''] d IH]; simpl.
  - by rewrite decide_False.
  - destruct (decide (k'' = k)) as [->|]; simpl.
    + by rewrite !decide_False.
    + by rewrite IH.
Qed.

(** An assignment adds its key to the keys, last, unless it is there. *)
Lemma dict_mem_cons k k' v d :
  dict_mem k ((k', v) :: d) = if decide (k' = k) then true else dict_mem k d.
Proof.
  unfold dict_mem. simpl. case_decide; [|done].
  apply bool_decide_eq_true. eauto.
Qed.

Lemma dict_keys_set k v d :
  dict_keys (dict_set k v d)
  = if dict_mem k d then dict_keys d else dict_keys d ++ [k].
Proof.
  unfold dict_keys. induction d as [|[k' v'] d IH]; [done|].
  rewrite dict_mem_cons. cbn [dict_set].
  destruct (decide (k' = k)) as [->|Hne]; [done|].
  rewrite !fmap_cons, IH. by destruct (dict_mem k d).
Qed.

Lemma elem_of_dict_keys_set k k' v d :
  k' ∈ dict_keys (dict_set k v d) ↔ k' = k ∨ k' ∈ dict_keys d.
Proof.
  rewrite dict_keys_set. destruct (dict_mem k d) eqn:Hm.
  - apply Is_true_true, dict_mem_spec in Hm.
    split; [by right|]. by intros [->|].
  - rewrite elem_of_app, list_elem_of_singleton. tauto.
Qed.

(** Assignment keeps the keys of a dictionary distinct. *)
Lemma NoDup_dict_set k v d :
  NoDup (dict_keys d) → NoDup (dict_keys (dict_set k v d)).
Proof.
  intros Hd. rewrite dict_keys_set. destruct (dict_mem k d) eqn:Hm; [done|].
  apply NoDup_app. split_and!; [done| |apply NoDup_singleton].
  intros k' Hk' ->%list_elem_of_singleton.
  apply dict_mem_spec in Hk'. by rewrite Hm in Hk'.
Qed.
End dict.

(** ** Loops in [result] *)

Section loops.
Context {A S : Type}.
Implicit Types (xs : list A) (body : A → S → result S) (s : S).

Lemma bind_Ok_inv {B C} (m : result B) (f : B → result C) c :
  m ≫= f = Ok c → ∃ b, m = Ok b ∧ f b = Ok c.
Proof. destruct m as [b|e]; [eauto|done]. Qed.

Lemma for_each_cons x xs body s :
  for_each (x :: xs) body s = body x s ≫= for_each xs body.
Proof. reflexivity. Qed.

Lemma for_each_app xs ys body s :
  for_each (xs ++ ys) body s = for_each xs body s ≫= for_each ys body.
Proof.
  revert s. induction xs as [|x xs IH]; intros s; [reflexivity|].
  rewrite <-app_comm_cons, !for_each_cons.
  destruct (body x s) as [s'|e]; [apply IH|reflexivity].
Qed.

Lemma for_each_ext xs body1 body2 s :
  (∀ x s, x ∈ xs → body1 x s = body2 x s) →
  for_each xs body1 s = for_each xs body2 s.
Proof.
  revert s. induction xs as [|x xs IH]; intros s Hext; [reflexivity|].
  rewrite !for_each_cons, Hext by left.
  destruct (body2 x s); [|reflexivity].
  apply IH. intros. apply Hext. by right.
Qed.

(** What every iteration keeps, the loop keeps. *)
Lemma for_each_invariant (P : S → Prop) xs body s s' :
  (∀ x s s', x ∈ xs → body x s = Ok s' → P s → P s') →
  P s → for_each xs body s = Ok s' → P s'.
Proof.
  revert s. induction xs as [|x xs IH]; intros s Hbody Hs.
  - by intros [= <-].
  - rewrite for_each_cons. intros (s1 & H1 & Hrest)%bind_Ok_inv.
    apply (IH s1); [|by eapply Hbody; [left|..]|done].
    intros ?????. eapply Hbody; [by right|done..].
Qed.
End loops.

(** ** The loader *)

Section loader.
Implicit Types (fs : filesystem) (d : pydict message).

Lemma store_message_assign file_id message_id data d :
  store_message file_id (message_id, data) d
  = assign (file_id +:+ ":" +:+ message_id, data) d.
Proof.
  unfold store_message, assign, message_of. simpl.
  destruct (md_message data); simpl; [|done].
  by destruct (md_placeholders data).
Qed.

Lemma for_each_fmap {A B S} (f : A → B) (xs : list A)
    (body : B → S → result S) (s : S) :
  for_each (f <$> xs) body s = for_each xs (λ x, body (f x)) s.
Proof.
  revert s. induction xs as [|x xs IH]; intros s; [reflexivity|].
  rewrite fmap_cons, !for_each_cons.
  destruct (body (f x) s); [apply IH|reflexivity].
Qed.

(** Loading a file stores its entries one after the other. *)
Lemma load_file_entries fs locale file_id d d' :
  load_file fs locale file_id d = Ok d' →
  for_each (entries fs locale file_id) assign d = Ok d'.
Proof.
  unfold load_file, entries.
  destruct (fs_json fs locale file_id) as [|json_data]; [done|].
  intros <-. rewrite for_each_fmap. apply for_each_ext.
  intros [message_id data] ? _. by rewrite store_message_assign.
Qed.

Lemma load_files_entries fs locale files d d' :
  for_each files (load_file fs locale) d = Ok d' →
  for_each (files ≫= entries fs locale) assign d = Ok d'.
Proof.
  revert d. induction files as [|f files IH]; intros d; [done|].
  rewrite for_each_cons. intros (d1 & H1 & Hrest)%bind_Ok_inv.
  rewrite bind_cons, for_each_app, (load_file_entries _ _ _ _ _ H1).
  by apply IH.
Qed.

Lemma read_catalog_stored fs locale d :
  read_catalog fs locale = Ok d →
  for_each (stored fs locale) assign [] = Ok d.
Proof. apply load_files_entries. Qed.

Lemma assign_Ok_inv entry d d' :
  assign entry d = Ok d' →
  ∃ m, message_of entry.2 = Some m ∧ d' = dict_set entry.1 m d.
Proof. unfold assign. destruct (message_of _); intros; simplify_eq; eauto. Qed.

Lemma assign_keys es d d' k :
  for_each es assign d = Ok d' →
  k ∈ dict_keys d' ↔ k ∈ dict_keys d ∨ k ∈ es.*1.
Proof.
  revert d. induction es as [|e es IH]; intros d.
  - intros [= <-]. rewrite elem_of_nil. tauto.
  - rewrite for_each_cons. intros (d1 & H1 & Hrest)%bind_Ok_inv.
    apply assign_Ok_inv in H1 as (m & _ & ->).
    rewrite (IH _ Hrest), elem_of_dict_keys_set, fmap_cons, elem_of_cons.
    tauto.
Qed.

Lemma assign_NoDup es d d' :
  for_each es assign d = Ok d' →
  NoDup (dict_keys d) → NoDup (dict_keys d').
Proof.
  intros Hfor Hd.
  apply (for_each_invariant (λ d, NoDup (dict_keys d)) _ _ _ _) in Hfor; [done| |done].
  intros e d1 d2 _ (m & _ & ->)%assign_Ok_inv. apply NoDup_dict_set.
Qed.

Lemma assign_get_other es d d' k :
  for_each es assign d = Ok d' → k ∉ es.*1 →
  dict_get k d' = dict_get k d.
Proof.
  revert d. induction es as [|e es IH]; intros d; [by intros [= <-]|].
  rewrite for_each_cons, fmap_cons, not_elem_of_cons.
  intros (d1 & H1 & Hrest)%bind_Ok_inv [Hne Hnotin].
  apply assign_Ok_inv in H1 as (m & _ & ->).
  by rewrite (IH _ Hrest Hnotin), dict_get_set_ne.
Qed.

(** The last assignment to a key decides its value. *)
Lemma assign_last before k data after d d' :
  for_each (before ++ (k, data) :: after) assign d = Ok d' →
  k ∉ after.*1 →
  ∃ m, message_of data = Some m ∧ dict_get k d' = Some m.
Proof.
  rewrite for_each_app.
  intros (d1 & _ & H2)%bind_Ok_inv Hnotin.
  rewrite for_each_cons in H2. apply bind_Ok_inv in H2 as (d2 & H2 & Hrest).
  apply assign_Ok_inv in H2 as (m & Hm & ->). exists m. split; [done|].
  rewrite (assign_get_other _ _ _ _ Hrest Hnotin). apply dict_get_set_eq.
Qed.

Lemma read_catalog_NoDup fs locale d :
  read_catalog fs locale = Ok d → NoDup (dict_keys d).
Proof.
  intros H%read_catalog_stored. eapply assign_NoDup; [done|]. constructor.
Qed.
End loader.

(** ** Loops in [io] and the log *)

Section log.
Implicit Types (fs : filesystem) (tr : list event).

Lemma io_for_each_cons {A S} (x : A) xs (body : A → S → io S) s tr :
  for_each (x :: xs) body s tr
  = match body x s tr with
    | (Ok s', tr') => for_each xs body s' tr'
    | (Raise e, tr') => (Raise e, tr')
    end.
Proof. reflexivity. Qed.

Lemma io_bind_run {A B} (m : io A) (f : A → io B) tr :
  (m ≫= f) tr
  = match m tr with
    | (Ok a, tr') => f a tr'
    | (Raise e, tr') => (Raise e, tr')
    end.
Proof. reflexivity. Qed.

Lemma os_path_isdir_run fs name tr :
  os_path_isdir fs name tr = (Ok (fs_isdir fs name), tr ++ [EIsDir name]).
Proof. reflexivity. Qed.

Lemma glob_json_run fs locale tr :
  glob_json fs locale tr = (Ok (fs_glob fs locale), tr ++ [EGlob locale]).
Proof. reflexivity. Qed.

Lemma os_walk_dirs_run fs tr :
  os_walk_dirs fs tr = (Ok (fs_subdirs fs), tr ++ [EWalk]).
Proof. reflexivity. Qed.

Lemma print_run line tr : print line tr = (Ok (), tr ++ [EPrint line]).
Proof. reflexivity. Qed.

Lemma globbed_app tr1 tr2 : globbed (tr1 ++ tr2) = globbed tr1 ++ globbed tr2.
Proof. apply omap_app. Qed.

Lemma stdout_app tr1 tr2 : stdout (tr1 ++ tr2) = stdout tr1 ++ stdout tr2.
Proof. apply omap_app. Qed.

Lemma loaded_app tr1 tr2 : loaded (tr1 ++ tr2) = loaded tr1 ++ loaded tr2.
Proof. apply omap_app. Qed.

Lemma globbed_loads locale files : globbed (ELoad locale <$> files) = [].
Proof. by induction files. Qed.

Lemma stdout_loads locale files : stdout (ELoad locale <$> files) = [].
Proof. by induction files. Qed.

Lemma globbed_catalog locale files :
  globbed (EGlob locale :: (ELoad locale <$> files)) = [locale].
Proof.
  change (locale :: globbed (ELoad locale <$> files) = [locale]).
  by rewrite globbed_loads.
Qed.

Lemma stdout_catalog locale files :
  stdout (EGlob locale :: (ELoad locale <$> files)) = [].
Proof. apply (stdout_loads locale files). Qed.

Lemma loaded_loads locale files :
  loaded (ELoad locale <$> files) = (locale,.) <$> files.
Proof. induction files; [done|]. simpl. by f_equal. Qed.

(** Opening one file: it is logged, then its entries are stored. *)
Lemma load_step fs locale file_id d tr :
  (json_data ← json_load fs locale file_id;
   lift (for_each json_data (store_message file_id) d)) tr
  = (load_file fs locale file_id d, tr ++ [ELoad locale file_id]).
Proof.
  unfold json_load, load_file, mbind, io_bind, emit, lift, io_raise.
  by destruct (fs_json fs locale file_id).
Qed.

(** The loop over the files: the files opened are a prefix of the list,
    the whole list unless an exception ends the loop. *)
Lemma load_loop fs locale files d tr :
  ∃ opened,
    for_each files (λ file_id messages,
      json_data ← json_load fs locale file_id;
      lift (for_each json_data (store_message file_id) messages)) d tr
    = (for_each files (load_file fs locale) d,
       tr ++ (ELoad locale <$> opened))
    ∧ opened `prefix_of` files
    ∧ (is_Ok (for_each files (load_file fs locale) d) → opened = files).
Proof.
  revert d tr. induction files as [|f files IH]; intros d tr.
  - exists []. by rewrite app_nil_r.
  - rewrite io_for_each_cons, load_step, for_each_cons.
    destruct (load_file fs locale f d) as [d1|e].
    + destruct (IH d1 (tr ++ [ELoad locale f])) as (opened & -> & Hpre & Hall).
      exists (f :: opened). rewrite <-app_assoc. split_and!; [done|..].
      * by apply prefix_cons.
      * intros Hok. by rewrite Hall.
    + exists [f]. split_and!; [done|..].
      * apply prefix_cons, prefix_nil.
      * by intros [? ?].
Qed.

(** [parseJsonFiles]: its value is the pure loader's, and it logs the
    enumeration of the locale's folder, then the files it opens. *)
Lemma parseJsonFiles_spec fs d locale tr :
  ∃ opened,
    parseJsonFiles fs d locale tr
    = (for_each (fs_glob fs locale) (load_file fs locale) d,
       tr ++ EGlob locale :: (ELoad locale <$> opened))
    ∧ opened `prefix_of` fs_glob fs locale
    ∧ (is_Ok (for_each (fs_glob fs locale) (load_file fs locale) d)
       → opened = fs_glob fs locale).
Proof.
  destruct (load_loop fs locale (fs_glob fs locale) d (tr ++ [EGlob locale]))
    as (opened & Hrun & Hpre & Hall).
  exists opened. split_and!; [|done..].
  unfold parseJsonFiles.
  by rewrite io_bind_run, glob_json_run, Hrun, <-app_assoc.
Qed.

(** The checks of one locale: the value is [locale_errors], the log grows
    by the loading of the locale's catalog. *)
Lemma check_locale_spec fs exceptions with_placeholders locale errors tr :
  ∃ opened,
    check_locale fs exceptions with_placeholders locale errors tr
    = (locale_errors fs exceptions with_placeholders locale errors,
       tr ++ EGlob locale :: (ELoad locale <$> opened))
    ∧ opened `prefix_of` fs_glob fs locale
    ∧ (is_Ok (read_catalog fs locale) → opened = fs_glob fs locale).
Proof.
  destruct (parseJsonFiles_spec fs [] locale tr) as (opened & Hrun & ?).
  exists opened. split; [|done].
  unfold check_locale, locale_errors. rewrite io_bind_run, Hrun.
  fold (read_catalog fs locale).
  destruct (read_catalog fs locale) as [locale_messages|e]; [|done].
  rewrite io_bind_run. unfold lift. simpl.
  by destruct (for_each with_placeholders _ errors).
Qed.

Lemma check_locale_globbed fs exceptions with_placeholders locale errors tr :
  globbed (check_locale fs exceptions with_placeholders locale errors tr).2
  = globbed tr ++ [locale].
Proof.
  destruct (check_locale_spec fs exceptions with_placeholders locale errors tr)
    as (opened & -> & _).
  cbn [snd]. by rewrite globbed_app, globbed_catalog.
Qed.

Lemma check_locale_stdout fs exceptions with_placeholders locale errors tr :
  stdout (check_locale fs exceptions with_placeholders locale errors tr).2
  = stdout tr.
Proof.
  destruct (check_locale_spec fs exceptions with_placeholders locale errors tr)
    as (opened & -> & _).
  cbn [snd]. by rewrite stdout_app, stdout_catalog, app_nil_r.
Qed.

(** The loop over the locales: they are visited in the order of the list,
    all of them unless an exception ends the loop, and nothing is
    printed. *)
Lemma locales_loop fs exceptions with_placeholders locales errors tr :
  ∃ visited,
    (for_each locales (check_locale fs exceptions with_placeholders)
       errors tr).1
    = for_each locales (locale_errors fs exceptions with_placeholders) errors
    ∧ globbed (for_each locales
                 (check_locale fs exceptions with_placeholders) errors tr).2
      = globbed tr ++ visited
    ∧ stdout (for_each locales
                (check_locale fs exceptions with_placeholders) errors tr).2
      = stdout tr
    ∧ visited `prefix_of` locales
    ∧ (is_Ok (for_each locales
                (locale_errors fs exceptions with_placeholders) errors)
       → visited = locales).
Proof.
  revert errors tr. induction locales as [|locale locales IH]; intros errors tr.
  - exists []. by rewrite app_nil_r.
  - rewrite io_for_each_cons, for_each_cons.
    pose proof (check_locale_globbed fs exceptions with_placeholders
                  locale errors tr) as Hg.
    pose proof (check_locale_stdout fs exceptions with_placeholders
                  locale errors tr) as Hs.
    destruct (check_locale_spec fs exceptions with_placeholders
                locale errors tr) as (opened & Hrun & _).
    rewrite Hrun in Hg, Hs |- *. cbn [snd] in Hg, Hs.
    destruct (locale_errors fs exceptions with_placeholders locale errors)
      as [errors1|e].
    + destruct (IH errors1 (tr ++ EGlob locale :: (ELoad locale <$> opened)))
        as (visited & -> & -> & -> & Hpre & Hall).
      exists (locale :: visited). rewrite Hg, Hs, <-app_assoc.
      split_and!; [done..| |].
      * by apply prefix_cons.
      * intros Hok. by rewrite Hall.
    + exists [locale]. simpl. split_and!; [done..| |].
      * apply prefix_cons, prefix_nil.
      * by intros [? ?].
Qed.
End log.

(** ** The two checks *)

Section checks.
Implicit Types (ref lm : pydict message) (errors : list string).
Implicit Types (exceptions : gmap string (gmap string (gset string))).

Lemma dict_set_fresh {V} k (v : V) (d : pydict V) :
  k ∉ dict_keys d → dict_set k v d = d ++ [(k, v)].
Proof.
  unfold dict_keys. induction d as [|[k' v'] d IH]; [done|].
  rewrite fmap_cons, not_elem_of_cons. intros [Hne Hd]. cbn [dict_set].
  rewrite decide_False by done. by rewrite IH.
Qed.

Lemma declared_cons k r ref :
  declared ((k, r) :: ref)
  = match placeholders r with
    | [] => declared ref
    | _ :: _ => (k, placeholders r) :: declared ref
    end.
Proof. unfold declared. simpl. by destruct (placeholders r). Qed.

Lemma placeholder_hits_cons listed lm k r ref :
  placeholder_hits listed lm ((k, r) :: ref)
  = match dict_get k lm with
    | Some m =>
        if decide (placeholders r ≠ [] ∧ (k ∉ listed)
                   ∧ ¬ (placeholders r ≡ₚ findall (text m)))
        then (k, m) :: placeholder_hits listed lm ref
        else placeholder_hits listed lm ref
    | None => placeholder_hits listed lm ref
    end.
Proof.
  unfold placeholder_hits. simpl.
  destruct (dict_get k lm); [|done]. by case_decide.
Qed.

Lemma pilcrow_hits_cons k m lm :
  pilcrow_hits ((k, m) :: lm)
  = if str_contains pilcrow (text m) then (k, m) :: pilcrow_hits lm
    else pilcrow_hits lm.
Proof.
  unfold pilcrow_hits. rewrite filter_cons. cbn [snd].
  by destruct (str_contains pilcrow (text m)).
Qed.

Lemma declared_keys_subseteq ref : dict_keys (declared ref) ⊆ dict_keys ref.
Proof.
  intros k. unfold dict_keys, declared.
  rewrite !list_elem_of_fmap. intros ([k' phs] & -> & Hin).
  apply list_elem_of_omap in Hin as ([k'' r] & Hin & Hsome).
  exists (k'', r). split; [|done].
  destruct (placeholders r); by simplify_eq.
Qed.

Lemma messages_with_placeholders_from d ref :
  NoDup (dict_keys d ++ dict_keys ref) →
  foldl (λ d '(k, v),
    match placeholders v with
    | [] => d
    | _ :: _ => dict_set k (placeholders v) d
    end) d ref
  = d ++ declared ref.
Proof.
  revert d. induction ref as [|[k r] ref IH]; intros d Hnd.
  - by rewrite app_nil_r.
  - unfold dict_keys in *. rewrite fmap_cons in Hnd.
    rewrite declared_cons. cbn [foldl].
    assert (NoDup (d.*1 ++ ref.*1) ∧ (k ∉ d.*1) ∧ (k ∉ ref.*1)) as (Hnd' & Hkd & Hkr).
    { apply NoDup_app in Hnd as (Hd & Hdis & [Hk Hr]%NoDup_cons).
      split_and!; [|by intros Hin; apply (Hdis _ Hin); left|done].
      apply NoDup_app. split_and!; [done| |done].
      intros x Hx Hx'. apply (Hdis _ Hx). by right. }
    destruct (placeholders r) as [|p phs] eqn:Hp; [by apply IH|].
    rewrite IH.
    + rewrite dict_set_fresh by done. by rewrite <-app_assoc.
    + rewrite dict_set_fresh by done. rewrite fmap_app. simpl.
      rewrite <-app_assoc. simpl.
      apply NoDup_app in Hnd as (Hd & Hdis & Hkref).
      apply NoDup_app. split_and!; [done| |done].
      intros x Hx Hx'. by apply (Hdis _ Hx).
Qed.

(** The comprehension keeps the reference messages with a non-empty
    placeholder list, in order. *)
Lemma messages_with_placeholders_declared ref :
  NoDup (dict_keys ref) → messages_with_placeholders ref = declared ref.
Proof.
  intros Hnd. unfold messages_with_placeholders.
  by rewrite messages_with_placeholders_from.
Qed.

Lemma known_exception_Ok exceptions by_locale locale k :
  exceptions !! "placeholders" = Some by_locale →
  known_exception exceptions locale k
  = Ok (bool_decide (k ∈ default ∅ (by_locale !! locale))).
Proof. unfold known_exception. by intros ->. Qed.

(** One iteration of the placeholder check, when the exceptions mapping
    has its [placeholders] entry. *)
Lemma check_placeholders_step exceptions by_locale locale lm k phs errors :
  exceptions !! "placeholders" = Some by_locale →
  check_placeholders exceptions locale lm (k, phs) errors
  = Ok (errors ++
        match dict_get k lm with
        | Some m =>
            if decide ((k ∉ default ∅ (by_locale !! locale))
                       ∧ ¬ (phs ≡ₚ findall (text m)))
            then [placeholder_error locale k (text m)] else []
        | None => []
        end).
Proof.
  intros Hexc. unfold check_placeholders.
  destruct (dict_get k lm) as [m|] eqn:Hget.
  - assert (dict_mem k lm = true) as ->
      by (apply Is_true_true, dict_mem_spec, dict_get_is_Some; eauto).
    cbn [negb]. rewrite (known_exception_Ok _ _ _ _ Hexc).
    change (Ok ?b ≫= ?f) with (f b). cbn beta.
    destruct (decide (k ∈ default ∅ (by_locale !! locale))) as [Hin|Hnotin].
    + rewrite bool_decide_eq_true_2 by done.
      rewrite decide_False by tauto. by rewrite app_nil_r.
    + rewrite bool_decide_eq_false_2 by done.
      destruct (decide (phs ≡ₚ findall (text m))) as [Hperm|Hperm].
      * rewrite bool_decide_eq_false_2; [|by rewrite sorted_eq_iff; auto].
        rewrite decide_False by tauto. by rewrite app_nil_r.
      * rewrite bool_decide_eq_true_2; [|by rewrite sorted_eq_iff].
        by rewrite decide_True.
  - apply dict_mem_false in Hget. rewrite Hget. cbn [negb].
    by rewrite app_nil_r.
Qed.

(** The placeholder loop appends the records of [placeholder_hits], in
    the order of the reference catalog. *)
Lemma placeholder_loop exceptions by_locale locale lm ref errors :
  exceptions !! "placeholders" = Some by_locale →
  for_each (declared ref) (check_placeholders exceptions locale lm) errors
  = Ok (errors ++ (placeholder_record locale <$>
          placeholder_hits (default ∅ (by_locale !! locale)) lm ref)).
Proof.
  intros Hexc. revert errors.
  induction ref as [|[k r] ref IH]; intros errors.
  - by rewrite app_nil_r.
  - rewrite declared_cons, placeholder_hits_cons.
    destruct (placeholders r) as [|p phs] eqn:Hp.
    + rewrite IH. destruct (dict_get k lm); [|done].
      by rewrite decide_False by tauto.
    + rewrite for_each_cons, (check_placeholders_step _ _ _ _ _ _ _ Hexc).
      change (Ok ?b ≫= ?f) with (f b). rewrite IH, <-app_assoc.
      destruct (dict_get k lm) as [m|]; [|done].
      destruct (decide ((k ∉ default ∅ (by_locale !! locale))
                        ∧ ¬ (p :: phs ≡ₚ findall (text m)))) as [Hhit|Hno].
      * by rewrite decide_True by (split; [done|tauto]).
      * by rewrite decide_False by tauto.
Qed.

Lemma check_pilcrow_step locale k m errors :
  check_pilcrow locale (k, m) errors
  = Ok (errors ++ if str_contains pilcrow (text m)
                  then [pilcrow_error locale k (text m)] else []).
Proof.
  unfold check_pilcrow.
  destruct (str_contains pilcrow (text m)); by rewrite ?app_nil_r.
Qed.

(** The pilcrow loop never raises and appends the records of
    [pilcrow_hits], in the order of the locale's catalog. *)
Lemma pilcrow_loop locale lm errors :
  for_each lm (check_pilcrow locale) errors
  = Ok (errors ++ (pilcrow_record locale <$> pilcrow_hits lm)).
Proof.
  revert errors. induction lm as [|[k m] lm IH]; intros errors.
  - by rewrite app_nil_r.
  - rewrite for_each_cons, pilcrow_hits_cons, check_pilcrow_step.
    change (Ok ?b ≫= ?f) with (f b). rewrite IH, <-app_assoc.
    by destruct (str_contains pilcrow (text m)).
Qed.
End checks.

(** ** [main] *)

Section main.
Implicit Types (fs : filesystem) (tr : list event).

(** Without the folder of the reference locale the script stops at
    once. *)
Lemma main_checks_missing_ref fs reference_locale tr :
  fs_isdir fs reference_locale = false →
  main_checks fs reference_locale tr
  = (Raise (SystemExit (inl ("The folder for the reference locale ("
                               +:+ reference_locale +:+ ") does not exist"))),
     tr ++ [EIsDir reference_locale]).
Proof.
  intros Hdir. unfold main_checks.
  by rewrite io_bind_run, os_path_isdir_run, Hdir.
Qed.

(** Looking for the exceptions file. *)
Lemma exceptions_run {A} fs (k : gmap string (gmap string (gset string)) → io A) tr :
  (has_exceptions ← os_path_isfile_exceptions fs;
   exceptions ←
     (if (has_exceptions : bool) then json_load_exceptions fs
      else print (fs_exception_path fs +:+ " is missing");; mret ∅);
   k exceptions) tr
  = match loaded_exceptions fs with
    | Ok exceptions => k exceptions (tr ++ exceptions_log fs)
    | Raise e => (Raise e, tr ++ exceptions_log fs)
    end.
Proof.
  unfold os_path_isfile_exceptions, json_load_exceptions, loaded_exceptions,
    exceptions_log, print, emit, io_raise.
  destruct (fs_exceptions fs);
    unfold mbind, io_bind, mret, io_ret; cbn beta iota;
    by rewrite <-app_assoc.
Qed.

(** The run of the checks when the folder of the reference locale exists:
    the reference catalog is loaded, then the exceptions, then the locales
    are walked and checked in turn. *)
Lemma main_checks_run fs reference_locale tr :
  fs_isdir fs reference_locale = true →
  ∃ tr1,
    stdout tr1 = [] ∧ globbed tr1 = [reference_locale] ∧
    main_checks fs reference_locale tr
    = match read_catalog fs reference_locale with
      | Ok reference_messages =>
          match loaded_exceptions fs with
          | Ok exceptions =>
              for_each (target_locales fs reference_locale)
                (check_locale fs exceptions
                   (messages_with_placeholders reference_messages)) []
                (tr ++ tr1 ++ exceptions_log fs ++ [EWalk])
          | Raise e => (Raise e, tr ++ tr1 ++ exceptions_log fs)
          end
      | Raise e => (Raise e, tr ++ tr1)
      end.
Proof.
  intros Hdir.
  destruct (parseJsonFiles_spec fs [] reference_locale
              (tr ++ [EIsDir reference_locale])) as (opened & Hrun & _).
  fold (read_catalog fs reference_locale) in Hrun.
  exists (EIsDir reference_locale
          :: EGlob reference_locale :: (ELoad reference_locale <$> opened)).
  split_and!.
  - apply (stdout_catalog reference_locale opened).
  - apply (globbed_catalog reference_locale opened).
  - unfold main_checks.
    rewrite io_bind_run, os_path_isdir_run, Hdir. cbn [negb].
    rewrite io_bind_run, Hrun.
    destruct (read_catalog fs reference_locale) as [reference_messages|e].
    + rewrite exceptions_run.
      destruct (loaded_exceptions fs) as [exceptions|e].
      * rewrite io_bind_run, os_walk_dirs_run.
        unfold target_locales. f_equal.
        rewrite <-!app_assoc. reflexivity.
      * rewrite <-!app_assoc. reflexivity.
    + rewrite <-!app_assoc. reflexivity.
Qed.

Lemma globbed_exceptions_log fs : globbed (exceptions_log fs) = [].
Proof. unfold exceptions_log. by destruct (fs_exceptions fs). Qed.

Lemma stdout_exceptions_log fs :
  stdout (exceptions_log fs)
  = match fs_exceptions fs with
    | ExceptionsAbsent => [fs_exception_path fs +:+ " is missing"]
    | _ => []
    end.
Proof. unfold exceptions_log. by destruct (fs_exceptions fs). Qed.

(** When the loop over the locales ends, everything before it went well
    and the error list is the one the checks of the locales built. *)
Lemma main_checks_Ok_inv fs reference_locale tr errors tr' :
  main_checks fs reference_locale tr = (Ok errors, tr') →
  fs_isdir fs reference_locale = true
  ∧ ∃ reference_messages exceptions,
      read_catalog fs reference_locale = Ok reference_messages
      ∧ loaded_exceptions fs = Ok exceptions
      ∧ for_each (target_locales fs reference_locale)
          (locale_errors fs exceptions
             (messages_with_placeholders reference_messages)) []
        = Ok errors.
Proof.
  intros Hrun. destruct (fs_isdir fs reference_locale) eqn:Hdir.
  - split; [done|].
    destruct (main_checks_run fs reference_locale tr Hdir)
      as (tr1 & _ & _ & Heq).
    rewrite Hrun in Heq.
    destruct (read_catalog fs reference_locale) as [reference_messages|];
      [|done].
    destruct (loaded_exceptions fs) as [exceptions|]; [|done].
    exists reference_messages, exceptions. split_and!; [done..|].
    destruct (locales_loop fs exceptions
                (messages_with_placeholders reference_messages)
                (target_locales fs reference_locale) []
                (tr ++ tr1 ++ exceptions_log fs ++ [EWalk]))
      as (visited & Hres & _).
    by rewrite <-Hres, <-Heq.
  - by rewrite (main_checks_missing_ref _ _ _ Hdir) in Hrun.
Qed.

Lemma main_run fs reference_locale tr :
  main fs reference_locale tr
  = match main_checks fs reference_locale tr with
    | (Ok errors, tr') => report errors tr'
    | (Raise e, tr') => (Raise e, tr')
    end.
Proof. reflexivity. Qed.

Lemma report_nil tr : report [] tr = (Ok (), tr ++ [EPrint "No errors found."]).
Proof. reflexivity. Qed.

Lemma report_cons e errors tr :
  report (e :: errors) tr
  = (Raise (SystemExit (inr 1%Z)),
     tr ++ [EPrint "ERRORS:"; EPrint (join nl (e :: errors))]).
Proof.
  unfold report. rewrite io_bind_run, print_run, io_bind_run, print_run.
  unfold sys_exit, io_raise. by rewrite <-app_assoc.
Qed.

(** Every joined line can be read back from the block [join] makes. *)
Lemma join_elem sep errors e :
  e ∈ errors → ∃ before after, join sep errors = before +:+ e +:+ after.
Proof.
  unfold join. induction errors as [|e' errors IH]; [by intros ?%elem_of_nil|].
  intros [->|Hin]%elem_of_cons.
  - destruct errors as [|e'' errors].
    + exists "", "". cbn [String.concat]. by rewrite str_app_nil_l, str_app_nil_r.
    + exists "", (sep +:+ String.concat sep (e'' :: errors)). reflexivity.
  - destruct (IH Hin) as (before & after & Heq).
    destruct errors as [|e'' errors]; [by apply elem_of_nil in Hin|].
    exists (e' +:+ sep +:+ before), after.
    change (String.concat sep (e' :: e'' :: errors))
      with (e' +:+ sep +:+ String.concat sep (e'' :: errors)).
    by rewrite Heq, !str_app_assoc.
Qed.

Lemma placeholder_error_shaped locale k l10n_message :
  record_shaped (placeholder_error locale k l10n_message).
Proof.
  exists locale, ("Placeholder mismatch in " +:+ k), l10n_message.
  unfold placeholder_error. by rewrite !str_app_assoc.
Qed.

Lemma pilcrow_error_shaped locale k l10n_message :
  record_shaped (pilcrow_error locale k l10n_message).
Proof.
  exists locale, ("'" +:+ pilcrow +:+ "' in " +:+ k), l10n_message.
  unfold pilcrow_error. by rewrite !str_app_assoc.
Qed.

(** The checks only ever append records of the three-line shape. *)
Lemma locale_errors_shaped fs exceptions with_placeholders locale errors errors' :
  locale_errors fs exceptions with_placeholders locale errors = Ok errors' →
  Forall record_shaped errors → Forall record_shaped errors'.
Proof.
  unfold locale_errors.
  intros (lm & _ & (errors1 & H1 & H2)%bind_Ok_inv)%bind_Ok_inv Hshaped.
  eapply (for_each_invariant (Forall record_shaped)); [| |exact H2].
  - intros [k m] es es' _ Hstep Hes. rewrite check_pilcrow_step in Hstep.
    simplify_eq. apply Forall_app. split; [done|].
    destruct (str_contains pilcrow (text m)); [|constructor].
    repeat constructor. apply pilcrow_error_shaped.
  - eapply (for_each_invariant (Forall record_shaped)); [|exact Hshaped|exact H1].
    intros [k phs] es es' _ Hstep Hes. unfold check_placeholders in Hstep.
    destruct (negb (dict_mem k lm)); [by simplify_eq|].
    apply bind_Ok_inv in Hstep as ([] & _ & Hstep); [by simplify_eq|].
    destruct (dict_get k lm) as [m|]; [|done].
    case_bool_decide; simplify_eq; [|done].
    apply Forall_app. split; [done|].
    repeat constructor. apply placeholder_error_shaped.
Qed.
End main.

(** ** What the checks report *)

Section hits.
Implicit Types (ref lm : pydict message) (listed : gset string).

Lemma elem_of_placeholder_hits listed lm ref k m :
  (k, m) ∈ placeholder_hits listed lm ref ↔
  ∃ r, (k, r) ∈ ref ∧ dict_get k lm = Some m ∧ placeholders r ≠ []
       ∧ (k ∉ listed) ∧ ¬ (placeholders r ≡ₚ findall (text m)).
Proof.
  unfold placeholder_hits. rewrite list_elem_of_omap. split.
  - intros ([k' r] & Hin & Hsome).
    destruct (dict_get k' lm) as [m'|] eqn:Hget; [|done].
    case_decide as Hcond; [|done]. simplify_eq. exists r. tauto.
  - intros (r & Hin & Hget & Hcond). exists (k, r). split; [done|].
    rewrite Hget. by rewrite decide_True.
Qed.

Lemma placeholder_hits_key listed lm ref k :
  k ∈ (placeholder_hits listed lm ref).*1 →
  k ∈ dict_keys ref ∧ k ∈ dict_keys lm ∧ k ∉ listed.
Proof.
  intros ([k' m] & -> & Hin)%list_elem_of_fmap.
  apply elem_of_placeholder_hits in Hin as (r & Hin & Hget & _ & Hl & _).
  split_and!; [|by apply dict_get_is_Some; eauto|done].
  apply list_elem_of_fmap. by exists (k', r).
Qed.

(** A message is reported for its placeholders at most once. *)
Lemma placeholder_hits_NoDup listed lm ref :
  NoDup (dict_keys ref) → NoDup (placeholder_hits listed lm ref).*1.
Proof.
  unfold dict_keys. induction ref as [|[k r] ref IH]; [constructor|].
  rewrite fmap_cons. intros [Hk Hnd]%NoDup_cons.
  rewrite placeholder_hits_cons.
  destruct (dict_get k lm) as [m|]; [|by auto].
  case_decide; [|by auto].
  rewrite fmap_cons. apply NoDup_cons. split; [|by auto].
  by intros [? _]%placeholder_hits_key.
Qed.

Lemma elem_of_pilcrow_hits lm k m :
  (k, m) ∈ pilcrow_hits lm ↔
  (k, m) ∈ lm ∧ ∃ before after, text m = before +:+ pilcrow +:+ after.
Proof.
  unfold pilcrow_hits. rewrite list_elem_of_filter. cbn [snd].
  rewrite str_contains_spec. tauto.
Qed.

(** A message is reported for a pilcrow at most once. *)
Lemma pilcrow_hits_NoDup lm :
  NoDup (dict_keys lm) → NoDup (pilcrow_hits lm).*1.
Proof.
  unfold dict_keys. induction lm as [|[k m] lm IH]; [constructor|].
  rewrite fmap_cons. intros [Hk Hnd]%NoDup_cons.
  rewrite pilcrow_hits_cons.
  destruct (str_contains pilcrow (text m)); [|by auto].
  rewrite fmap_cons. apply NoDup_cons. split; [|by auto].
  cbn [fst] in *.
  intros ([k' m'] & -> & [Hin _]%elem_of_pilcrow_hits)%list_elem_of_fmap.
  apply Hk. apply list_elem_of_fmap. by exists (k', m').
Qed.

(** The checks of a locale whose catalog loads, under an exceptions
    mapping with its [placeholders] entry. *)
Lemma locale_errors_Ok fs exceptions by_locale ref locale lm errors :
  read_catalog fs locale = Ok lm →
  NoDup (dict_keys ref) →
  exceptions !! "placeholders" = Some by_locale →
  locale_errors fs exceptions (messages_with_placeholders ref) locale errors
  = Ok (errors
        ++ (placeholder_record locale <$>
              placeholder_hits (default ∅ (by_locale !! locale)) lm ref)
        ++ (pilcrow_record locale <$> pilcrow_hits lm)).
Proof.
  intros Hlm Hnd Hexc. unfold locale_errors. rewrite Hlm.
  change (Ok ?b ≫= ?f) with (f b). cbn beta.
  rewrite (messages_with_placeholders_declared _ Hnd),
    (placeholder_loop _ _ _ _ _ _ Hexc).
  change (Ok ?b ≫= ?f) with (f b). cbn beta.
  by rewrite pilcrow_loop, <-app_assoc.
Qed.

Lemma check_locale_result fs exceptions with_placeholders locale errors tr :
  (check_locale fs exceptions with_placeholders locale errors tr).1
  = locale_errors fs exceptions with_placeholders locale errors.
Proof.
  by destruct (check_locale_spec fs exceptions with_placeholders
                 locale errors tr) as (opened & -> & _).
Qed.

Lemma elem_of_declared ref k r :
  (k, r) ∈ ref → placeholders r ≠ [] → (k, placeholders r) ∈ declared ref.
Proof.
  intros Hin Hne. apply list_elem_of_omap. exists (k, r). split; [done|].
  by destruct (placeholders r).
Qed.

Lemma declared_key_nonempty ref k :
  k ∈ dict_keys (declared ref) →
  ∃ r, (k, r) ∈ ref ∧ placeholders r ≠ [].
Proof.
  intros ([k' phs] & -> & Hin)%list_elem_of_fmap.
  apply list_elem_of_omap in Hin as ([k r] & Hin & Hsome).
  exists r. destruct (placeholders r) eqn:Hp; by simplify_eq.
Qed.
End hits.

(** ** The order of the locales *)

Section order.
Implicit Types (fs : filesystem) (tr : list event).

Lemma startswith_spec s p : startswith s p ↔ ∃ rest, s = p +:+ rest.
Proof. unfold startswith. by rewrite Is_true_true, prefix_spec. Qed.

Lemma elem_of_select_locales subdirs reference_locale d :
  d ∈ select_locales subdirs reference_locale ↔
  d ∈ subdirs ∧ ¬ (∃ rest, d = "." +:+ rest) ∧ d ≠ reference_locale.
Proof.
  unfold select_locales. rewrite list_elem_of_filter, <-startswith_spec.
  destruct (startswith d "."); simpl; tauto.
Qed.

Lemma globbed_report errors tr : globbed (report errors tr).2 = globbed tr.
Proof.
  destruct errors; rewrite ?report_nil, ?report_cons; cbn [snd];
    by rewrite globbed_app, app_nil_r.
Qed.

Lemma stdout_report errors tr :
  stdout (report errors tr).2
  = stdout tr ++ match errors with
                 | [] => ["No errors found."]
                 | _ :: _ => ["ERRORS:"; join nl errors]
                 end.
Proof.
  destruct errors; rewrite ?report_nil, ?report_cons; cbn [snd];
    by rewrite stdout_app.
Qed.

Lemma main_globbed fs reference_locale tr :
  globbed (main fs reference_locale tr).2
  = globbed (main_checks fs reference_locale tr).2.
Proof.
  rewrite main_run.
  destruct (main_checks fs reference_locale tr) as [[errors|e] tr']; [|done].
  apply globbed_report.
Qed.

(** The folders the script enumerates are the reference locale, then the
    target locales in their sorted order: all of them when the loop over
    the locales ends, the first of them when an exception stops the
    script. *)
Lemma main_checks_globbed fs reference_locale :
  ∃ visited,
    globbed (main_checks fs reference_locale []).2 = visited
    ∧ visited `prefix_of` reference_locale :: target_locales fs reference_locale
    ∧ (is_Ok (main_checks fs reference_locale []).1 →
       visited = reference_locale :: target_locales fs reference_locale).
Proof.
  destruct (fs_isdir fs reference_locale) eqn:Hdir.
  - destruct (main_checks_run fs reference_locale [] Hdir)
      as (tr1 & _ & Hglob & ->).
    destruct (read_catalog fs reference_locale) as [reference_messages|e].
    + destruct (loaded_exceptions fs) as [exceptions|e].
      * destruct (locales_loop fs exceptions
                    (messages_with_placeholders reference_messages)
                    (target_locales fs reference_locale) []
                    ([] ++ tr1 ++ exceptions_log fs ++ [EWalk]))
          as (visited & Hres & Hvisited & _ & Hpre & Hall).
        exists (reference_locale :: visited). split_and!.
        -- rewrite Hvisited, app_nil_l, !globbed_app, Hglob,
             globbed_exceptions_log. done.
        -- by apply prefix_cons.
        -- rewrite Hres. intros Hok. by rewrite Hall.
      * exists [reference_locale]. cbn [fst snd]. split_and!.
        -- by rewrite app_nil_l, !globbed_app, Hglob, globbed_exceptions_log.
        -- apply prefix_cons, prefix_nil.
        -- by intros [? ?].
    + exists [reference_locale]. cbn [fst snd]. split_and!.
      * by rewrite app_nil_l.
      * apply prefix_cons, prefix_nil.
      * by intros [? ?].
  - rewrite (main_checks_missing_ref _ _ _ Hdir). exists []. split_and!.
    + done.
    + apply prefix_nil.
    + by intros [? ?].
Qed.
End order.

(** ** When the loader returns *)

Section totality.
Implicit Types (fs : filesystem) (d : pydict message).

Lemma message_of_is_Some data :
  is_Some (message_of data) ↔ is_Some (md_message data).
Proof.
  unfold message_of. destruct (md_message data); simpl.
  - split; eauto.
  - split; by intros [? ?].
Qed.

Lemma is_Ok_Raise {A} e : ¬ is_Ok (Raise e : result A).
Proof. by intros [? ?]. Qed.

Lemma is_Ok_Ok {A} (a : A) : is_Ok (Ok a).
Proof. by exists a. Qed.

Lemma assign_is_Ok es d :
  is_Ok (for_each es assign d) ↔ ∀ e, e ∈ es → is_Some (md_message e.2).
Proof.
  revert d. induction es as [|e es IH]; intros d.
  - split; [by intros _ ? ?%elem_of_nil|intros _; apply is_Ok_Ok].
  - rewrite for_each_cons.
    destruct (message_of e.2) as [m|] eqn:Hm.
    + assert (assign e d = Ok (dict_set e.1 m d)) as ->
        by (unfold assign; by rewrite Hm).
      change (Ok ?b ≫= ?f) with (f b). rewrite IH. split.
      * intros Hes e' [->|Hin]%elem_of_cons; [|by auto].
        apply message_of_is_Some. by rewrite Hm.
      * intros Hes e' Hin. apply Hes. by right.
    + assert (assign e d = Raise (KeyError "message")) as ->
        by (unfold assign; by rewrite Hm).
      split; [by intros ?%is_Ok_Raise|]. intros Hes.
      assert (is_Some (message_of e.2)) as [m' Hm']
        by (apply message_of_is_Some, Hes; left).
      congruence.
Qed.

Lemma load_file_Parsed fs locale file_id json_data d :
  fs_json fs locale file_id = Parsed json_data →
  load_file fs locale file_id d
  = for_each (entries fs locale file_id) assign d.
Proof.
  unfold load_file, entries. intros ->.
  rewrite for_each_fmap. apply for_each_ext.
  intros [message_id data] ? _. by rewrite store_message_assign.
Qed.

Lemma load_files_is_Ok fs locale files d :
  is_Ok (for_each files (load_file fs locale) d) ↔
  (∀ file_id, file_id ∈ files → fs_json fs locale file_id ≠ Malformed)
  ∧ (∀ e, e ∈ files ≫= entries fs locale → is_Some (md_message e.2)).
Proof.
  revert d. induction files as [|f files IH]; intros d.
  - split; [|intros _; apply is_Ok_Ok].
    intros _. split; [by intros ? ?%elem_of_nil|by intros ? ?%elem_of_nil].
  - rewrite for_each_cons, bind_cons.
    destruct (fs_json fs locale f) as [|json_data] eqn:Hjson.
    + assert (load_file fs locale f d = Raise JSONDecodeError) as ->
        by (unfold load_file; by rewrite Hjson).
      split; [by intros ?%is_Ok_Raise|].
      intros [Hfiles _]. destruct (Hfiles f); [by left|done].
    + rewrite (load_file_Parsed _ _ _ _ _ Hjson).
      destruct (for_each (entries fs locale f) assign d) as [d1|e] eqn:Hf.
      * change (Ok ?b ≫= ?f) with (f b). rewrite IH.
        assert (∀ e, e ∈ entries fs locale f → is_Some (md_message e.2))
          as Hentries by (apply (assign_is_Ok _ d); rewrite Hf; apply is_Ok_Ok).
        split.
        -- intros [Hfiles Hes]. split.
           ++ intros f' [->|Hin]%elem_of_cons; [congruence|by auto].
           ++ intros e [Hin|Hin]%elem_of_app; by auto.
        -- intros [Hfiles Hes]. split.
           ++ intros f' Hin. apply Hfiles. by right.
           ++ intros e Hin. apply Hes, elem_of_app. by right.
      * split; [by intros ?%is_Ok_Raise|]. intros [_ Hes].
        assert (is_Ok (for_each (entries fs locale f) assign d)) as Hok.
        { apply assign_is_Ok. intros e' Hin. apply Hes, elem_of_app. by left. }
        rewrite Hf in Hok. by apply is_Ok_Raise in Hok.
Qed.

(** The loader returns a catalog exactly for the well-formed locales. *)
Lemma read_catalog_is_Ok fs locale :
  is_Ok (read_catalog fs locale) ↔ well_formed_catalog fs locale.
Proof. apply load_files_is_Ok. Qed.
End totality.

(** ** An exceptions mapping without its [placeholders] entry *)

Section no_entry.
Implicit Types (fs : filesystem) (lm : pydict message).
Implicit Types (exceptions : gmap string (gmap string (gset string))).

Lemma check_placeholders_no_entry exceptions locale lm k phs errors :
  exceptions !! "placeholders" = None →
  check_placeholders exceptions locale lm (k, phs) errors
  = if dict_mem k lm then Raise (KeyError "placeholders") else Ok errors.
Proof.
  intros Hnone. unfold check_placeholders, known_exception. rewrite Hnone.
  by destruct (dict_mem k lm).
Qed.

(** The placeholder loop raises at the first translated message. *)
Lemma placeholder_loop_no_entry exceptions locale lm
    (items : pydict (list string)) errors :
  exceptions !! "placeholders" = None →
  for_each items (check_placeholders exceptions locale lm) errors
  = if decide (Exists (λ item, dict_mem item.1 lm) items)
    then Raise (KeyError "placeholders") else Ok errors.
Proof.
  intros Hnone. induction items as [|[k phs] items IH].
  - by rewrite decide_False by (by intros ?%Exists_nil).
  - rewrite for_each_cons, (check_placeholders_no_entry _ _ _ _ _ _ Hnone).
    destruct (dict_mem k lm) eqn:Hmem.
    + rewrite decide_True; [done|]. left. cbn [fst]. by rewrite Hmem.
    + change (Ok ?b ≫= ?f) with (f b). rewrite IH.
      destruct (decide (Exists (λ item, dict_mem item.1 lm) items)) as [Hex|Hno].
      * by rewrite decide_True by (by right).
      * rewrite decide_False; [done|].
        intros [Hhd|Htl]%Exists_cons; [|done].
        cbn [fst] in Hhd. by rewrite Hmem in Hhd.
Qed.

(** The loop over the locales raises at the first locale that translates a
    message with placeholders. *)
Lemma locales_loop_no_entry fs exceptions (items : pydict (list string))
    locales errors locale lm k :
  exceptions !! "placeholders" = None →
  (∀ l, l ∈ locales → is_Ok (read_catalog fs l)) →
  locale ∈ locales →
  read_catalog fs locale = Ok lm →
  k ∈ dict_keys items → k ∈ dict_keys lm →
  for_each locales (locale_errors fs exceptions items) errors
  = Raise (KeyError "placeholders").
Proof.
  intros Hnone Hall Hin Hlm Hitems Hk. revert errors Hall Hin.
  induction locales as [|l locales IH]; intros errors Hall Hin;
    [by apply elem_of_nil in Hin|].
  rewrite for_each_cons.
  destruct (Hall l) as [lm' Hlm']; [by left|].
  assert (locale_errors fs exceptions items l errors
          = if decide (Exists (λ item, dict_mem item.1 lm') items)
            then Raise (KeyError "placeholders")
            else Ok (errors ++ (pilcrow_record l <$> pilcrow_hits lm'))) as ->.
  { unfold locale_errors. rewrite Hlm'.
    change (Ok ?b ≫= ?f) with (f b). cbn beta.
    rewrite (placeholder_loop_no_entry _ _ _ _ _ Hnone).
    case_decide; [done|].
    change (Ok ?b ≫= ?f) with (f b). apply pilcrow_loop. }
  destruct (decide (Exists (λ item, dict_mem item.1 lm') items)) as [Hex|Hno];
    [done|].
  change (Ok ?b ≫= ?f) with (f b).
  apply elem_of_cons in Hin as [->|Hin].
  - destruct Hno. apply Exists_exists.
    apply list_elem_of_fmap in Hitems as ([k' phs] & -> & Hitem).
    exists (k', phs). split; [done|]. apply dict_mem_spec. cbn [fst] in *.
    rewrite Hlm in Hlm'. by simplify_eq.
  - apply IH; [|done]. intros l' Hl'. apply Hall. by right.
Qed.
End no_entry.

(** * The claims *)

(** C2. For a reference message that declares placeholders and a target
    locale whose loaded catalog translates it and which does not list it
    as an exception, the tokens [$name$] of the translated text, taken left
    to right without overlap, are compared with the declared placeholders
    by equality of the sorted lists, which is equality as multisets; the
    placeholder loop, and so the checks of the locale, append one record
    exactly when they differ.  The record is the locale code, a colon, and
    on two further lines the message key and the translated text. *)
Theorem placeholder_mismatch_reported (fs : filesystem)
    (exceptions : gmap string (gmap string (gset string)))
    (by_locale : gmap string (gset string))
    (locale : string) (lm ref : pydict message) (errors : list string)
    (tr : list event) :
  read_catalog fs locale = Ok lm →
  NoDup (dict_keys ref) →
  exceptions !! "placeholders" = Some by_locale →
  let listed := default ∅ (by_locale !! locale) in
  let hits := placeholder_hits listed lm ref in
  let record := λ hit : string * message,
    locale +:+ ":" +:+ nl +:+ "  Placeholder mismatch in " +:+ hit.1
      +:+ nl +:+ "  Text: " +:+ text hit.2 in
  for_each (messages_with_placeholders ref)
    (check_placeholders exceptions locale lm) errors
  = Ok (errors ++ (record <$> hits))
  ∧ (check_locale fs exceptions (messages_with_placeholders ref)
       locale errors tr).1
    = Ok (errors ++ (record <$> hits)
          ++ ((λ hit, locale +:+ ":" +:+ nl +:+ "  '" +:+ pilcrow +:+ "' in "
                        +:+ hit.1 +:+ nl +:+ "  Text: " +:+ text hit.2)
                <$> pilcrow_hits lm))
  ∧ NoDup hits.*1
  ∧ (∀ hit, hit ∈ hits →
       (∃ before after, record hit = before +:+ locale +:+ after)
       ∧ (∃ before after, record hit = before +:+ hit.1 +:+ after)
       ∧ (∃ before after, record hit = before +:+ text hit.2 +:+ after))
  ∧ ∀ k r m,
      dict_get k ref = Some r → placeholders r ≠ [] →
      dict_get k lm = Some m → k ∉ listed →
      ∃ tokens,
        Tokens (text m) tokens
        ∧ (sorted (placeholders r) = sorted tokens ↔ placeholders r ≡ₚ tokens)
        ∧ ((k, m) ∈ hits ↔ sorted (placeholders r) ≠ sorted tokens)
        ∧ (∀ m', (k, m') ∈ hits → m' = m).
Proof.
  intros Hlm Hnd Hexc listed hits record. split_and!.
  - rewrite (messages_with_placeholders_declared _ Hnd).
    apply (placeholder_loop _ _ _ _ _ _ Hexc).
  - rewrite check_locale_result.
    apply (locale_errors_Ok _ _ _ _ _ _ _ Hlm Hnd Hexc).
  - by apply placeholder_hits_NoDup.
  - intros [k m] _. unfold record. cbn [fst snd]. split_and!.
    + by exists "", (":" +:+ nl +:+ "  Placeholder mismatch in " +:+ k
                       +:+ nl +:+ "  Text: " +:+ text m).
    + exists (locale +:+ ":" +:+ nl +:+ "  Placeholder mismatch in "),
        (nl +:+ "  Text: " +:+ text m).
      by rewrite !str_app_assoc.
    + exists (locale +:+ ":" +:+ nl +:+ "  Placeholder mismatch in " +:+ k
                +:+ nl +:+ "  Text: "), "".
      by rewrite !str_app_assoc, str_app_nil_r.
  - intros k r m Hr Hne Hm Hlisted. exists (findall (text m)).
    split_and!.
    + apply findall_Tokens.
    + apply sorted_eq_iff.
    + rewrite sorted_eq_iff. unfold hits.
      rewrite elem_of_placeholder_hits. split.
      * intros (r' & Hin & _ & _ & _ & Hperm).
        apply (dict_get_elem _ _ _ Hnd) in Hin. by simplify_eq.
      * intros Hperm. exists r. by apply dict_get_Some_elem in Hr.
    + intros m' (r' & _ & Hm' & _)%elem_of_placeholder_hits. congruence.
Qed.

Lemma placeholder_mismatch_reported_witness :
  for_each (messages_with_placeholders en_catalog)
    (check_placeholders example_exceptions "fr" fr_catalog) []
  = Ok ["fr:" +:+ nl +:+ "  Placeholder mismatch in greeting.json:hello"
          +:+ nl +:+ "  Text: Bonjour, $nom$!"]
  ∧ (check_locale (example_fs (ExceptionsParsed example_exceptions))
       example_exceptions (messages_with_placeholders en_catalog)
       "fr" [] []).1
    = Ok ["fr:" +:+ nl +:+ "  Placeholder mismatch in greeting.json:hello"
            +:+ nl +:+ "  Text: Bonjour, $nom$!"].
Proof.
  assert (NoDup (dict_keys en_catalog)) as Hnd
    by (apply (bool_decide_unpack _); vm_compute; exact I).
  destruct (placeholder_mismatch_reported
              (example_fs (ExceptionsParsed example_exceptions))
              example_exceptions example_by_locale
              "fr" fr_catalog en_catalog [] [] eq_refl Hnd eq_refl)
    as (Hloop & Hlocale & _).
  split.
  - rewrite Hloop. vm_compute. reflexivity.
  - rewrite Hlocale. vm_compute. reflexivity.
Defined.

(** C3. Once the catalog of a target locale is loaded and the placeholder
    loop has ended, every message of the catalog whose text contains the
    pilcrow gets exactly one record, and a message without pilcrow gets
    none.  The record is the locale code, a colon, and on two further lines
    the message key and the text.  The reference catalog and the
    placeholders play no part: [with_placeholders] is arbitrary. *)
Theorem pilcrow_reported (fs : filesystem)
    (exceptions : gmap string (gmap string (gset string)))
    (with_placeholders : pydict (list string))
    (locale : string) (lm : pydict message)
    (errors errors1 : list string) (tr : list event) :
  read_catalog fs locale = Ok lm →
  for_each with_placeholders (check_placeholders exceptions locale lm) errors
  = Ok errors1 →
  let record := λ hit : string * message,
    locale +:+ ":" +:+ nl +:+ "  '" +:+ pilcrow +:+ "' in " +:+ hit.1
      +:+ nl +:+ "  Text: " +:+ text hit.2 in
  (check_locale fs exceptions with_placeholders locale errors tr).1
  = Ok (errors1 ++ (record <$> pilcrow_hits lm))
  ∧ NoDup (pilcrow_hits lm).*1
  ∧ (∀ hit, hit ∈ pilcrow_hits lm →
       (∃ before after, record hit = before +:+ locale +:+ after)
       ∧ (∃ before after, record hit = before +:+ hit.1 +:+ after)
       ∧ (∃ before after, record hit = before +:+ text hit.2 +:+ after))
  ∧ ∀ k m,
      dict_get k lm = Some m →
      ((k, m) ∈ pilcrow_hits lm ↔
         ∃ before after, text m = before +:+ pilcrow +:+ after)
      ∧ (∀ m', (k, m') ∈ pilcrow_hits lm → m' = m).
Proof.
  intros Hlm Hloop record. pose proof (read_catalog_NoDup _ _ _ Hlm) as Hnd.
  split_and!.
  - rewrite check_locale_result. unfold locale_errors. rewrite Hlm.
    change (Ok ?b ≫= ?f) with (f b). cbn beta. rewrite Hloop.
    change (Ok ?b ≫= ?f) with (f b). apply pilcrow_loop.
  - by apply pilcrow_hits_NoDup.
  - intros [k m] _. unfold record. cbn [fst snd]. split_and!.
    + by exists "", (":" +:+ nl +:+ "  '" +:+ pilcrow +:+ "' in " +:+ k
                       +:+ nl +:+ "  Text: " +:+ text m).
    + exists (locale +:+ ":" +:+ nl +:+ "  '" +:+ pilcrow +:+ "' in "),
        (nl +:+ "  Text: " +:+ text m).
      by rewrite !str_app_assoc.
    + exists (locale +:+ ":" +:+ nl +:+ "  '" +:+ pilcrow +:+ "' in " +:+ k
                +:+ nl +:+ "  Text: "), "".
      by rewrite !str_app_assoc, str_app_nil_r.
  - intros k m Hm. split.
    + rewrite elem_of_pilcrow_hits. apply dict_get_Some_elem in Hm. tauto.
    + intros m' [Hin _]%elem_of_pilcrow_hits.
      apply (dict_get_elem _ _ _ Hnd) in Hin. congruence.
Qed.

Lemma pilcrow_reported_witness :
  (check_locale (example_fs (ExceptionsParsed example_exceptions))
     example_exceptions (messages_with_placeholders en_catalog) "it" [] []).1
  = Ok ["it:" +:+ nl +:+ "  '" +:+ pilcrow +:+ "' in greeting.json:hello"
          +:+ nl +:+ "  Text: Ciao, $nome$!" +:+ pilcrow].
Proof.
  destruct (pilcrow_reported (example_fs (ExceptionsParsed example_exceptions))
              example_exceptions (messages_with_placeholders en_catalog)
              "it" it_catalog [] [] [] eq_refl eq_refl) as [Hrun _].
  rewrite Hrun. vm_compute. reflexivity.
Defined.

(** C4. A message key listed under a locale in the [placeholders] mapping
    of the exceptions file is never reported for its placeholders in that
    locale, whatever its tokens are; the pilcrow check still reports it
    when its text contains the pilcrow. *)
Theorem exception_suppresses_mismatch_only (fs : filesystem)
    (exceptions : gmap string (gmap string (gset string)))
    (by_locale : gmap string (gset string)) (listed : gset string)
    (ref lm : pydict message) (locale k : string)
    (errors : list string) (tr : list event) :
  read_catalog fs locale = Ok lm →
  NoDup (dict_keys ref) →
  exceptions !! "placeholders" = Some by_locale →
  by_locale !! locale = Some listed →
  k ∈ listed →
  (check_locale fs exceptions (messages_with_placeholders ref)
     locale errors tr).1
  = Ok (errors
        ++ ((λ hit, placeholder_error locale hit.1 (text hit.2))
              <$> placeholder_hits listed lm ref)
        ++ ((λ hit, pilcrow_error locale hit.1 (text hit.2))
              <$> pilcrow_hits lm))
  ∧ (k ∉ (placeholder_hits listed lm ref).*1)
  ∧ ∀ m, dict_get k lm = Some m →
      ((k, m) ∈ pilcrow_hits lm ↔
         ∃ before after, text m = before +:+ pilcrow +:+ after).
Proof.
  intros Hlm Hnd Hexc Hlocale Hk. split_and!.
  - rewrite check_locale_result, (locale_errors_Ok _ _ _ _ _ _ _ Hlm Hnd Hexc).
    by rewrite Hlocale.
  - by intros (_ & _ & ?)%placeholder_hits_key.
  - intros m Hm. rewrite elem_of_pilcrow_hits.
    apply dict_get_Some_elem in Hm. tauto.
Qed.

Lemma exception_suppresses_mismatch_only_witness :
  (check_locale (example_fs (ExceptionsParsed example_exceptions))
     example_exceptions (messages_with_placeholders en_catalog) "it" [] []).1
  = Ok ["it:" +:+ nl +:+ "  '" +:+ pilcrow +:+ "' in greeting.json:hello"
          +:+ nl +:+ "  Text: Ciao, $nome$!" +:+ pilcrow]
  ∧ sorted ["name"] ≠ sorted (findall ("Ciao, $nome$!" +:+ pilcrow)).
Proof.
  assert (NoDup (dict_keys en_catalog)) as Hnd
    by (apply (bool_decide_unpack _); vm_compute; exact I).
  assert ("greeting.json:hello" ∈ ({[ "greeting.json:hello" ]} : gset string))
    as Hk by (apply (bool_decide_unpack _); vm_compute; exact I).
  destruct (exception_suppresses_mismatch_only
              (example_fs (ExceptionsParsed example_exceptions))
              example_exceptions example_by_locale {[ "greeting.json:hello" ]}
              en_catalog it_catalog "it" "greeting.json:hello" [] []
              eq_refl Hnd eq_refl eq_refl Hk) as [Hrun _].
  split; [|by vm_compute].
  rewrite Hrun. vm_compute. reflexivity.
Defined.

(** C7. A reference message that declares placeholders and whose key is
    not in the catalog of a target locale is visited by the placeholder
    loop, and its iteration leaves the error list as it was, whatever the
    exceptions are: no placeholder record is made for that key. *)
Theorem untranslated_message_skipped
    (exceptions : gmap string (gmap string (gset string)))
    (locale : string) (lm ref : pydict message) (k : string) (r : message)
    (errors : list string) :
  NoDup (dict_keys ref) →
  dict_get k ref = Some r →
  placeholders r ≠ [] →
  dict_get k lm = None →
  (k, placeholders r) ∈ messages_with_placeholders ref
  ∧ check_placeholders exceptions locale lm (k, placeholders r) errors
    = Ok errors
  ∧ ∀ listed, k ∉ (placeholder_hits listed lm ref).*1.
Proof.
  intros Hnd Hr Hne Hlm. split_and!.
  - rewrite (messages_with_placeholders_declared _ Hnd).
    apply elem_of_declared; [|done]. by apply dict_get_Some_elem.
  - unfold check_placeholders. apply dict_mem_false in Hlm. by rewrite Hlm.
  - intros listed (_ & Hin & _)%placeholder_hits_key.
    by apply dict_get_None in Hlm.
Qed.

Lemma untranslated_message_skipped_witness :
  check_placeholders ∅ "de" [] ("greeting.json:hello", ["name"]) [] = Ok [].
Proof.
  assert (NoDup (dict_keys en_catalog)) as Hnd
    by (apply (bool_decide_unpack _); vm_compute; exact I).
  assert (["name"] ≠ ([] : list string)) as Hne by discriminate.
  exact (proj1 (proj2 (untranslated_message_skipped ∅ "de" [] en_catalog
    "greeting.json:hello" {| text := "Hello, $name$!"; placeholders := ["name"] |}
    [] Hnd eq_refl Hne eq_refl))).
Defined.

(** C10. A reference message whose placeholder list is empty is not among
    the messages the placeholder loop visits, so no placeholder record is
    made for its key in any locale, whatever tokens the translation
    holds. *)
Theorem no_placeholders_no_check
    (exceptions : gmap string (gmap string (gset string)))
    (by_locale : gmap string (gset string))
    (locale : string) (lm ref : pydict message) (k : string) (r : message)
    (errors : list string) :
  NoDup (dict_keys ref) →
  dict_get k ref = Some r →
  placeholders r = [] →
  exceptions !! "placeholders" = Some by_locale →
  (k ∉ dict_keys (messages_with_placeholders ref))
  ∧ for_each (messages_with_placeholders ref)
      (check_placeholders exceptions locale lm) errors
    = Ok (errors ++ ((λ hit, placeholder_error locale hit.1 (text hit.2))
                       <$> placeholder_hits (default ∅ (by_locale !! locale))
                             lm ref))
  ∧ ∀ listed, k ∉ (placeholder_hits listed lm ref).*1.
Proof.
  intros Hnd Hr Hempty Hexc. split_and!.
  - rewrite (messages_with_placeholders_declared _ Hnd).
    intros (r' & Hin & Hne)%declared_key_nonempty.
    apply (dict_get_elem _ _ _ Hnd) in Hin. by simplify_eq.
  - rewrite (messages_with_placeholders_declared _ Hnd).
    apply (placeholder_loop _ _ _ _ _ _ Hexc).
  - intros listed ([k' m] & -> & Hin)%list_elem_of_fmap.
    apply elem_of_placeholder_hits in Hin as (r' & Hin & _ & Hne & _).
    apply (dict_get_elem _ _ _ Hnd) in Hin. cbn [fst] in Hr. by simplify_eq.
Qed.

Lemma no_placeholders_no_check_witness :
  ("greeting.json:bye" ∉ dict_keys (messages_with_placeholders en_catalog))
  ∧ findall "Au revoir $vous$" = ["vous"]
  ∧ for_each (messages_with_placeholders en_catalog)
      (check_placeholders example_exceptions "fr" fr_catalog) []
    = Ok ["fr:" +:+ nl +:+ "  Placeholder mismatch in greeting.json:hello"
            +:+ nl +:+ "  Text: Bonjour, $nom$!"].
Proof.
  assert (NoDup (dict_keys en_catalog)) as Hnd
    by (apply (bool_decide_unpack _); vm_compute; exact I).
  destruct (no_placeholders_no_check example_exceptions example_by_locale
              "fr" fr_catalog en_catalog "greeting.json:bye"
              {| text := "Goodbye"; placeholders := [] |} []
              Hnd eq_refl eq_refl eq_refl) as (Hkey & Hloop & _).
  split_and!; [done|by vm_compute|].
  rewrite Hloop. vm_compute. reflexivity.
Defined.

(** C6. When the folder of the reference locale does not exist, the script
    exits with status 1 and a message that names the locale; the test of
    the folder is all it has done by then: no folder was enumerated, no
    catalog file opened, the locales were not listed, nothing was
    printed. *)
Theorem missing_reference_folder (fs : filesystem) (reference_locale : string) :
  fs_isdir fs reference_locale = false →
  run fs reference_locale
  = (Raise (SystemExit (inl ("The folder for the reference locale ("
                               +:+ reference_locale +:+ ") does not exist"))),
     [EIsDir reference_locale])
  ∧ exit_status (run fs reference_locale).1 = 1%Z
  ∧ (∃ before after,
       exit_message (run fs reference_locale).1
       = Some (before +:+ reference_locale +:+ after))
  ∧ globbed (run fs reference_locale).2 = []
  ∧ loaded (run fs reference_locale).2 = []
  ∧ (EWalk ∉ (run fs reference_locale).2)
  ∧ stdout (run fs reference_locale).2 = [].
Proof.
  intros Hdir.
  assert (run fs reference_locale
          = (Raise (SystemExit (inl ("The folder for the reference locale ("
                                       +:+ reference_locale
                                       +:+ ") does not exist"))),
             [EIsDir reference_locale])) as Hrun.
  { unfold run. by rewrite main_run, (main_checks_missing_ref _ _ _ Hdir). }
  rewrite Hrun. split_and!; [done..| | | | |done].
  - by exists "The folder for the reference locale (", ") does not exist".
  - done.
  - done.
  - by intros [?|?%elem_of_nil]%elem_of_cons.
Qed.

Lemma missing_reference_folder_witness :
  run (example_fs ExceptionsAbsent) "pt"
  = (Raise (SystemExit
              (inl "The folder for the reference locale (pt) does not exist")),
     [EIsDir "pt"]).
Proof.
  exact (proj1 (missing_reference_folder (example_fs ExceptionsAbsent) "pt"
                  eq_refl)).
Defined.

(** C5. When the loop over the locales has ended with the error list
    [errors]: if the list is not empty, the script prints the header line,
    then the records joined by newlines, each of them a block of three
    lines with the locale, the description and the text, and exits with
    status 1; if it is empty, it prints the success line and ends with
    status 0. *)
Theorem report_and_exit (fs : filesystem) (reference_locale : string)
    (errors : list string) (tr : list event) :
  main_checks fs reference_locale [] = (Ok errors, tr) →
  run fs reference_locale
  = match errors with
    | [] => (Ok (), tr ++ [EPrint "No errors found."])
    | _ :: _ =>
        (Raise (SystemExit (inr 1%Z)),
         tr ++ [EPrint "ERRORS:"; EPrint (join nl errors)])
    end
  ∧ (exit_status (run fs reference_locale).1 = 0%Z ↔ errors = [])
  ∧ (errors ≠ [] → exit_status (run fs reference_locale).1 = 1%Z)
  ∧ Forall record_shaped errors
  ∧ ∀ e, e ∈ errors → ∃ before after, join nl errors = before +:+ e +:+ after.
Proof.
  intros Hchecks.
  assert (run fs reference_locale
          = match errors with
            | [] => (Ok (), tr ++ [EPrint "No errors found."])
            | _ :: _ =>
                (Raise (SystemExit (inr 1%Z)),
                 tr ++ [EPrint "ERRORS:"; EPrint (join nl errors)])
            end) as Hrun.
  { unfold run. rewrite main_run, Hchecks.
    destruct errors; [apply report_nil|apply report_cons]. }
  rewrite Hrun. split_and!; [done|..].
  - by destruct errors.
  - by destruct errors.
  - apply main_checks_Ok_inv in Hchecks
      as (_ & reference_messages & exceptions & _ & _ & Hloop).
    eapply (for_each_invariant (Forall record_shaped)); [|constructor|exact Hloop].
    intros locale es es' _. apply locale_errors_shaped.
  - intros e. apply join_elem.
Qed.

Lemma report_and_exit_witness :
  stdout (run (example_fs (ExceptionsParsed example_exceptions)) "en").2
  = ["ERRORS:";
     "de:" +:+ nl +:+ "  '" +:+ pilcrow +:+ "' in greeting.json:hello"
       +:+ nl +:+ "  Text: Hallo, $name$!" +:+ pilcrow +:+ nl +:+
     "fr:" +:+ nl +:+ "  Placeholder mismatch in greeting.json:hello"
       +:+ nl +:+ "  Text: Bonjour, $nom$!" +:+ nl +:+
     "it:" +:+ nl +:+ "  '" +:+ pilcrow +:+ "' in greeting.json:hello"
       +:+ nl +:+ "  Text: Ciao, $nome$!" +:+ pilcrow]
  ∧ exit_status (run (example_fs (ExceptionsParsed example_exceptions)) "en").1
    = 1%Z.
Proof.
  destruct (report_and_exit (example_fs (ExceptionsParsed example_exceptions))
              "en" _ _ eq_refl) as (Hrun & _ & Hstatus & _).
  split.
  - rewrite Hrun. vm_compute. reflexivity.
  - apply Hstatus. vm_compute. discriminate.
Defined.

(** C8. The locales the script checks are the immediate subfolders of the
    base path whose name does not start with a dot and is not the reference
    locale, each as often as it is listed, in sorted order; the script
    enumerates the folder of the reference locale, then theirs in that
    order, all of them when the loop over the locales ends. *)
Theorem locales_selected_and_sorted (fs : filesystem) (reference_locale : string) :
  let locales := target_locales fs reference_locale in
  Sorted String.le locales
  ∧ locales ≡ₚ select_locales (fs_subdirs fs) reference_locale
  ∧ (∀ d, d ∈ locales ↔
          d ∈ fs_subdirs fs ∧ ¬ (∃ rest, d = "." +:+ rest)
          ∧ d ≠ reference_locale)
  ∧ globbed (run fs reference_locale).2 `prefix_of` reference_locale :: locales
  ∧ (is_Ok (main_checks fs reference_locale []).1 →
     globbed (run fs reference_locale).2 = reference_locale :: locales).
Proof.
  intros locales. unfold locales, target_locales.
  destruct (main_checks_globbed fs reference_locale)
    as (visited & Hvisited & Hpre & Hall).
  unfold run. rewrite main_globbed, Hvisited. split_and!.
  - apply Sorted_sorted.
  - apply sorted_Permutation.
  - intros d. by rewrite sorted_Permutation, elem_of_select_locales.
  - done.
  - done.
Qed.

(** The example tree: the hidden folder and the reference locale are left
    out, the other three come in alphabetical order. *)
Example locales_of_example :
  target_locales (example_fs ExceptionsAbsent) "en" = ["de"; "fr"; "it"]
  ∧ globbed (run (example_fs (ExceptionsParsed example_exceptions)) "en").2
    = ["en"; "de"; "fr"; "it"].
Proof. split; vm_compute; reflexivity. Qed.

(** C9. The loader returns a catalog exactly when every file of the locale
    parses and every entry has its [message] field.  In the catalog it
    returns, the keys are distinct and are the composite keys met in the
    files; the value of a key is the message of the last entry stored
    under it, in the order the files are processed: an earlier entry under
    the same key is overwritten without notice. *)
Theorem catalog_keys_unique_last_wins (fs : filesystem) (locale : string)
    (tr : list event) :
  let r := parseJsonFiles fs [] locale tr in
  (is_Ok r.1 ↔ well_formed_catalog fs locale)
  ∧ ∀ catalog, r.1 = Ok catalog →
      NoDup (dict_keys catalog)
      ∧ (∀ k, k ∈ dict_keys catalog ↔ k ∈ (stored fs locale).*1)
      ∧ (∀ before k data after,
           stored fs locale = before ++ (k, data) :: after →
           k ∉ after.*1 →
           ∃ m, message_of data = Some m ∧ dict_get k catalog = Some m).
Proof.
  intros r.
  assert (r.1 = read_catalog fs locale) as ->.
  { unfold r. by destruct (parseJsonFiles_spec fs [] locale tr)
      as (opened & -> & _). }
  split; [apply read_catalog_is_Ok|].
  intros catalog Hcatalog. split_and!.
  - by eapply read_catalog_NoDup.
  - intros k. apply read_catalog_stored in Hcatalog.
    rewrite (assign_keys _ _ _ k Hcatalog). unfold dict_keys at 1.
    rewrite fmap_nil, elem_of_nil. tauto.
  - intros before k data after Hstored Hlast.
    apply read_catalog_stored in Hcatalog. rewrite Hstored in Hcatalog.
    by eapply assign_last.
Qed.

(** Two files whose entries meet under the key [a.json:b.json:c]: the
    catalog holds the entry of the file processed last. *)
Example collision_last_file_wins :
  stored collision_fs "xx"
  = [("a.json:b.json:c", entry "first" None);
     ("a.json:b.json:c", entry "second" None)]
  ∧ (parseJsonFiles collision_fs [] "xx" []).1
    = Ok [("a.json:b.json:c", {| text := "second"; placeholders := [] |})].
Proof. split; vm_compute; reflexivity. Qed.

(** C1. With the exceptions file absent the script prints its warning and
    goes on with an empty mapping, but it does not complete the validation:
    on every tree where the catalogs load and some target locale translates
    a reference message that declares placeholders, the lookup of the
    [placeholders] entry in the empty mapping raises [KeyError], which
    nothing catches; the script ends with status 1, having printed the
    warning only. *)
Theorem missing_exceptions_file_stops_the_run (fs : filesystem)
    (reference_locale locale k : string)
    (reference_messages lm : pydict message) (r : message) :
  fs_isdir fs reference_locale = true →
  fs_exceptions fs = ExceptionsAbsent →
  read_catalog fs reference_locale = Ok reference_messages →
  (∀ l, l ∈ target_locales fs reference_locale → is_Ok (read_catalog fs l)) →
  locale ∈ target_locales fs reference_locale →
  read_catalog fs locale = Ok lm →
  dict_get k reference_messages = Some r →
  placeholders r ≠ [] →
  is_Some (dict_get k lm) →
  (run fs reference_locale).1 = Raise (KeyError "placeholders")
  ∧ stdout (run fs reference_locale).2
    = [fs_exception_path fs +:+ " is missing"]
  ∧ exit_status (run fs reference_locale).1 = 1%Z.
Proof.
  intros Hdir Habsent Href Hall Hlocale Hlm Hr Hne Hk.
  pose proof (read_catalog_NoDup _ _ _ Href) as Hnd.
  destruct (main_checks_run fs reference_locale [] Hdir)
    as (tr1 & Hout & _ & Hchecks).
  rewrite Href in Hchecks.
  assert (loaded_exceptions fs = Ok ∅) as Hexc
    by (unfold loaded_exceptions; by rewrite Habsent).
  rewrite Hexc in Hchecks.
  destruct (locales_loop fs ∅ (messages_with_placeholders reference_messages)
              (target_locales fs reference_locale) []
              ([] ++ tr1 ++ exceptions_log fs ++ [EWalk]))
    as (visited & Hres & _ & Hstdout & _).
  rewrite <-Hchecks in Hres, Hstdout.
  rewrite (locales_loop_no_entry fs ∅ _ _ [] locale lm k) in Hres;
    [|done..| |by apply dict_get_is_Some].
  - assert (run fs reference_locale
            = (Raise (KeyError "placeholders"),
               (main_checks fs reference_locale []).2)) as Hrun.
    { unfold run. rewrite main_run.
      destruct (main_checks fs reference_locale []) as [res tr'].
      cbn [fst snd] in *. by rewrite Hres. }
    rewrite Hrun. cbn [fst snd]. split_and!; [done| |done].
    rewrite Hstdout, app_nil_l, !stdout_app, Hout, stdout_exceptions_log,
      Habsent.
    reflexivity.
  - rewrite (messages_with_placeholders_declared _ Hnd).
    apply list_elem_of_fmap. exists (k, placeholders r). split; [done|].
    apply elem_of_declared; [|done]. by apply dict_get_Some_elem.
Qed.

Lemma missing_exceptions_file_stops_the_run_witness :
  run (example_fs ExceptionsAbsent) "en"
  = (Raise (KeyError "placeholders"),
     [EIsDir "en"; EGlob "en"; ELoad "en" "greeting.json";
      EIsFile "/repo/.github/scripts/check_exceptions.json";
      EPrint "/repo/.github/scripts/check_exceptions.json is missing";
      EWalk; EGlob "de"; ELoad "de" "greeting.json"])
  ∧ exit_status (run (example_fs ExceptionsAbsent) "en").1 = 1%Z.
Proof.
  assert (∀ l, l ∈ target_locales (example_fs ExceptionsAbsent) "en" →
               is_Ok (read_catalog (example_fs ExceptionsAbsent) l)) as Hall.
  { intros l Hl. change (l ∈ ["de"; "fr"; "it"]) in Hl.
    repeat (apply elem_of_cons in Hl as [->|Hl]);
      [eexists; vm_compute; reflexivity..|by apply elem_of_nil in Hl]. }
  assert ("fr" ∈ target_locales (example_fs ExceptionsAbsent) "en") as Hfr
    by (apply (bool_decide_unpack _); vm_compute; exact I).
  assert (["name"] ≠ ([] : list string)) as Hne by discriminate.
  destruct (missing_exceptions_file_stops_the_run
              (example_fs ExceptionsAbsent) "en" "fr" "greeting.json:hello"
              en_catalog fr_catalog
              {| text := "Hello, $name$!"; placeholders := ["name"] |}
              eq_refl eq_refl eq_refl Hall Hfr eq_refl eq_refl Hne
              (ex_intro _ _ eq_refl)) as (_ & _ & Hstatus).
  split; [vm_compute; reflexivity|exact Hstatus].
Defined.

(** * Further properties *)

(** ** Which exceptions can be raised *)

Section raised.
Implicit Types (fs : filesystem) (d : pydict message) (e : exn).

(** What a loop raises, one of its iterations raised. *)
Lemma for_each_raise {A S} (Q : exn → Prop) (xs : list A)
    (body : A → S → result S) (s : S) e :
  (∀ x s e, x ∈ xs → body x s = Raise e → Q e) →
  for_each xs body s = Raise e → Q e.
Proof.
  revert s. induction xs as [|x xs IH]; intros s Hbody; [done|].
  rewrite for_each_cons. destruct (body x s) as [s'|e'] eqn:Hx.
  - change (Ok ?b ≫= ?f) with (f b). apply IH.
    intros ?????. eapply Hbody; [by right|done].
  - intros [= <-]. eapply Hbody; [by left|done].
Qed.

Lemma assign_raise entry d e : assign entry d = Raise e → e = KeyError "message".
Proof. unfold assign. destruct (message_of entry.2); by intros [=]. Qed.

Lemma load_file_raise fs locale file_id d e :
  load_file fs locale file_id d = Raise e → loader_exn e.
Proof.
  destruct (fs_json fs locale file_id) as [|json_data] eqn:Hjson.
  - unfold load_file. rewrite Hjson. intros [= <-]. by left.
  - rewrite (load_file_Parsed _ _ _ _ _ Hjson). intros Hraise. right.
    eapply (for_each_raise (λ e, e = KeyError "message")); [|exact Hraise].
    intros entry d' e' _. apply assign_raise.
Qed.

Lemma read_catalog_raise fs locale e :
  read_catalog fs locale = Raise e → loader_exn e.
Proof.
  apply (for_each_raise loader_exn). intros f d e' _. apply load_file_raise.
Qed.

Lemma check_placeholders_raise
    (exceptions : gmap string (gmap string (gset string)))
    locale d item (errors : list string) e :
  check_placeholders exceptions locale d item errors = Raise e →
  e = KeyError "placeholders".
Proof.
  destruct item as [k phs]. unfold check_placeholders, known_exception.
  destruct (dict_mem k d) eqn:Hmem; [|done]. cbn [negb].
  destruct (exceptions !! "placeholders") as [by_locale|]; [|by intros [=]].
  change (Ok ?b ≫= ?f) with (f b). cbn beta.
  destruct (bool_decide _); [done|].
  apply Is_true_true, dict_mem_spec, dict_get_is_Some in Hmem as [m ->].
  by case_bool_decide.
Qed.

Lemma locale_errors_raise fs
    (exceptions : gmap string (gmap string (gset string)))
    (items : pydict (list string)) locale (errors : list string) e :
  locale_errors fs exceptions items locale errors = Raise e →
  loader_exn e ∨ e = KeyError "placeholders".
Proof.
  unfold locale_errors.
  destruct (read_catalog fs locale) as [lm|e'] eqn:Hlm.
  - change (Ok ?b ≫= ?f) with (f b). cbn beta.
    destruct (for_each items _ errors) as [errors1|e'] eqn:Hloop.
    + change (Ok ?b ≫= ?f) with (f b). by rewrite pilcrow_loop.
    + intros [= <-]. right.
      eapply (for_each_raise (λ e, e = KeyError "placeholders")); [|exact Hloop].
      intros item es e'' _. apply check_placeholders_raise.
  - intros [= <-]. left. by apply (read_catalog_raise _ _ _ Hlm).
Qed.

Lemma loaded_exceptions_raise fs e :
  loaded_exceptions fs = Raise e → e = JSONDecodeError.
Proof. unfold loaded_exceptions. destruct (fs_exceptions fs); by intros [=]. Qed.

(** [main_checks] has the value [checks_result]. *)
Lemma main_checks_result fs reference_locale tr :
  (main_checks fs reference_locale tr).1 = checks_result fs reference_locale.
Proof.
  unfold checks_result. destruct (fs_isdir fs reference_locale) eqn:Hdir.
  - destruct (main_checks_run fs reference_locale tr Hdir)
      as (tr1 & _ & _ & ->).
    destruct (read_catalog fs reference_locale) as [reference_messages|e];
      [|done].
    change (Ok ?b ≫= ?f) with (f b). cbn beta.
    destruct (loaded_exceptions fs) as [exceptions|e]; [|done].
    change (Ok ?b ≫= ?f) with (f b). cbn beta.
    by destruct (locales_loop fs exceptions
                   (messages_with_placeholders reference_messages)
                   (target_locales fs reference_locale) []
                   (tr ++ tr1 ++ exceptions_log fs ++ [EWalk]))
      as (visited & -> & _).
  - by rewrite (main_checks_missing_ref _ _ _ Hdir).
Qed.

(** Up to the report the script prints the warning at most. *)
Lemma main_checks_stdout fs reference_locale tr :
  stdout (main_checks fs reference_locale tr).2
  = stdout tr ++ warning_lines fs reference_locale.
Proof.
  unfold warning_lines. destruct (fs_isdir fs reference_locale) eqn:Hdir.
  - destruct (main_checks_run fs reference_locale tr Hdir)
      as (tr1 & Hout & _ & ->).
    destruct (read_catalog fs reference_locale) as [reference_messages|e].
    + destruct (loaded_exceptions fs) as [exceptions|e].
      * destruct (locales_loop fs exceptions
                    (messages_with_placeholders reference_messages)
                    (target_locales fs reference_locale) []
                    (tr ++ tr1 ++ exceptions_log fs ++ [EWalk]))
          as (visited & _ & _ & -> & _).
        rewrite !stdout_app, Hout. cbn [app]. by rewrite app_nil_r.
      * cbn [snd]. by rewrite !stdout_app, Hout.
    + cbn [snd]. by rewrite stdout_app, Hout.
  - rewrite (main_checks_missing_ref _ _ _ Hdir). cbn [snd].
    by rewrite stdout_app.
Qed.

Lemma checks_result_raise fs reference_locale e :
  checks_result fs reference_locale = Raise e →
  (∃ msg, e = SystemExit (inl msg)) ∨ loader_exn e
  ∨ e = KeyError "placeholders".
Proof.
  unfold checks_result. destruct (fs_isdir fs reference_locale).
  - destruct (read_catalog fs reference_locale) as [reference_messages|e']
      eqn:Href.
    + change (Ok ?b ≫= ?f) with (f b). cbn beta.
      destruct (loaded_exceptions fs) as [exceptions|e'] eqn:Hexc.
      * change (Ok ?b ≫= ?f) with (f b). cbn beta. intros Hloop. right.
        eapply (for_each_raise
                  (λ e, loader_exn e ∨ e = KeyError "placeholders"));
          [|exact Hloop].
        intros locale es e'' _. apply locale_errors_raise.
      * intros [= <-]. right. left. left.
        by apply (loaded_exceptions_raise _ _ Hexc).
    + intros [= <-]. right. left. by apply (read_catalog_raise _ _ _ Href).
  - intros [= <-]. left. eauto.
Qed.

(** The run, from the value of the checks. *)
Lemma run_result fs reference_locale :
  (run fs reference_locale).1
  = match checks_result fs reference_locale with
    | Ok [] => Ok ()
    | Ok (_ :: _) => Raise (SystemExit (inr 1%Z))
    | Raise e => Raise e
    end.
Proof.
  unfold run. rewrite main_run, <-(main_checks_result fs reference_locale []).
  destruct (main_checks fs reference_locale []) as [[errors|e] tr]; [|done].
  cbn [fst]. destruct errors; by rewrite ?report_nil, ?report_cons.
Qed.

Lemma run_stdout fs reference_locale :
  stdout (run fs reference_locale).2
  = warning_lines fs reference_locale
    ++ match checks_result fs reference_locale with
       | Ok errors => report_lines errors
       | Raise _ => []
       end.
Proof.
  unfold run. rewrite main_run.
  pose proof (main_checks_result fs reference_locale []) as Hres.
  pose proof (main_checks_stdout fs reference_locale []) as Hout.
  destruct (main_checks fs reference_locale []) as [[errors|e] tr];
    cbn [fst snd] in *; rewrite <-Hres.
  - by rewrite stdout_report, Hout.
  - by rewrite Hout, app_nil_r.
Qed.
End raised.

(** ** Runs that an exception ends *)

Section fatal.
Implicit Types (fs : filesystem) (tr : list event) (e : exn).

Lemma exit_status_raise e :
  (∀ n, e ≠ SystemExit (inr n)) → exit_status (Raise e) = 1%Z.
Proof.
  intros Hne. destruct e as [| |[msg|n]]; try done. by destruct (Hne n).
Qed.

Lemma loader_exn_status e : loader_exn e → exit_status (Raise e) = 1%Z.
Proof. by intros [-> | ->]. Qed.

(** The run with the log spelled out up to the loop over the locales. *)
Lemma main_checks_log fs reference_locale tr :
  fs_isdir fs reference_locale = true →
  ∃ opened,
    opened `prefix_of` fs_glob fs reference_locale
    ∧ (is_Ok (read_catalog fs reference_locale) →
       opened = fs_glob fs reference_locale)
    ∧ main_checks fs reference_locale tr
      = match read_catalog fs reference_locale with
        | Ok reference_messages =>
            match loaded_exceptions fs with
            | Ok exceptions =>
                for_each (target_locales fs reference_locale)
                  (check_locale fs exceptions
                     (messages_with_placeholders reference_messages)) []
                  (tr ++ EIsDir reference_locale :: EGlob reference_locale
                      :: (ELoad reference_locale <$> opened)
                      ++ exceptions_log fs ++ [EWalk])
            | Raise e =>
                (Raise e,
                 tr ++ EIsDir reference_locale :: EGlob reference_locale
                    :: (ELoad reference_locale <$> opened)
                    ++ exceptions_log fs)
            end
        | Raise e =>
            (Raise e,
             tr ++ EIsDir reference_locale :: EGlob reference_locale
                :: (ELoad reference_locale <$> opened))
        end.
Proof.
  intros Hdir.
  destruct (parseJsonFiles_spec fs [] reference_locale
              (tr ++ [EIsDir reference_locale]))
    as (opened & Hrun & Hpre & Hall).
  fold (read_catalog fs reference_locale) in Hrun, Hall.
  exists opened. split_and!; [done..|].
  unfold main_checks.
  rewrite io_bind_run, os_path_isdir_run, Hdir. cbn [negb].
  rewrite io_bind_run, Hrun.
  destruct (read_catalog fs reference_locale) as [reference_messages|e].
  - rewrite exceptions_run.
    destruct (loaded_exceptions fs) as [exceptions|e].
    + rewrite io_bind_run, os_walk_dirs_run.
      unfold target_locales. f_equal.
      rewrite <-!app_assoc. reflexivity.
    + rewrite <-!app_assoc. reflexivity.
  - rewrite <-!app_assoc. reflexivity.
Qed.
End fatal.

(** X1. When loading the catalog of the reference locale raises an
    exception, as it does on a file whose text is not valid JSON or on an
    entry without its [message] field, the run ends with that exception
    and status 1.  By then the script has tested the folder, enumerated it
    and opened its files up to the failing one: it has printed nothing, has
    not looked for the exceptions file and has not listed the locales. *)
Theorem reference_catalog_failure (fs : filesystem) (reference_locale : string)
    (e : exn) :
  fs_isdir fs reference_locale = true →
  read_catalog fs reference_locale = Raise e →
  ∃ opened,
    opened `prefix_of` fs_glob fs reference_locale
    ∧ run fs reference_locale
      = (Raise e,
         EIsDir reference_locale :: EGlob reference_locale
           :: (ELoad reference_locale <$> opened))
    ∧ exit_status (run fs reference_locale).1 = 1%Z.
Proof.
  intros Hdir Href.
  destruct (main_checks_log fs reference_locale [] Hdir)
    as (opened & Hpre & _ & Hchecks).
  rewrite Href in Hchecks.
  assert (run fs reference_locale
          = (Raise e,
             EIsDir reference_locale :: EGlob reference_locale
               :: (ELoad reference_locale <$> opened))) as Hrun.
  { unfold run. by rewrite main_run, Hchecks. }
  exists opened. rewrite Hrun. split_and!; [done..|].
  apply loader_exn_status. by apply (read_catalog_raise _ _ _ Href).
Qed.

Lemma reference_catalog_failure_witness :
  (∃ opened,
     run broken_fs "en"
     = (Raise JSONDecodeError,
        EIsDir "en" :: EGlob "en" :: (ELoad "en" <$> opened)))
  ∧ run broken_fs "en"
    = (Raise JSONDecodeError,
       [EIsDir "en"; EGlob "en"; ELoad "en" "a.json"; ELoad "en" "b.json"])
  ∧ run broken_fs "fr"
    = (Raise (KeyError "message"),
       [EIsDir "fr"; EGlob "fr"; ELoad "fr" "a.json"; ELoad "fr" "b.json"]).
Proof.
  destruct (reference_catalog_failure broken_fs "en" JSONDecodeError
              eq_refl eq_refl) as (opened & _ & Hrun & _).
  split_and!; [by exists opened|vm_compute; reflexivity..].
Defined.

(** X2. An exceptions file that does not parse is fatal: the run ends with
    [JSONDecodeError] and status 1 right after the attempt to load it, with
    nothing printed, before the locales are listed and before any target
    catalog is read. *)
Theorem malformed_exceptions_file (fs : filesystem) (reference_locale : string)
    (reference_messages : pydict message) :
  fs_isdir fs reference_locale = true →
  read_catalog fs reference_locale = Ok reference_messages →
  fs_exceptions fs = ExceptionsMalformed →
  run fs reference_locale
  = (Raise JSONDecodeError,
     EIsDir reference_locale :: EGlob reference_locale
       :: (ELoad reference_locale <$> fs_glob fs reference_locale)
       ++ [EIsFile (fs_exception_path fs); ELoadExceptions])
  ∧ exit_status (run fs reference_locale).1 = 1%Z.
Proof.
  intros Hdir Href Hexc.
  destruct (main_checks_log fs reference_locale [] Hdir)
    as (opened & _ & Hall & Hchecks).
  rewrite Href in Hchecks, Hall. rewrite (Hall (is_Ok_Ok _)) in Hchecks.
  unfold loaded_exceptions, exceptions_log in Hchecks. rewrite Hexc in Hchecks.
  assert (run fs reference_locale
          = (Raise JSONDecodeError,
             EIsDir reference_locale :: EGlob reference_locale
               :: (ELoad reference_locale <$> fs_glob fs reference_locale)
               ++ [EIsFile (fs_exception_path fs); ELoadExceptions])) as Hrun.
  { unfold run. by rewrite main_run, Hchecks. }
  by rewrite Hrun.
Qed.

Lemma malformed_exceptions_file_witness :
  run (example_fs ExceptionsMalformed) "en"
  = (Raise JSONDecodeError,
     [EIsDir "en"; EGlob "en"; ELoad "en" "greeting.json";
      EIsFile "/repo/.github/scripts/check_exceptions.json"; ELoadExceptions]).
Proof.
  exact (proj1 (malformed_exceptions_file (example_fs ExceptionsMalformed) "en"
                  en_catalog eq_refl eq_refl eq_refl)).
Defined.

(** X3. An exception that ends the checks ends the run: the run has the
    same exception and status 1, and the errors collected so far are lost,
    for the script has printed the warning about the exceptions file at
    most. *)
Theorem no_partial_report (fs : filesystem) (reference_locale : string)
    (e : exn) :
  (main_checks fs reference_locale []).1 = Raise e →
  (run fs reference_locale).1 = Raise e
  ∧ stdout (run fs reference_locale).2
      `prefix_of` [fs_exception_path fs +:+ " is missing"]
  ∧ exit_status (run fs reference_locale).1 = 1%Z.
Proof.
  rewrite main_checks_result. intros Hraise.
  rewrite run_result, run_stdout, Hraise, app_nil_r. split_and!; [done|..].
  - unfold warning_lines. destruct (fs_isdir fs reference_locale);
      [|apply prefix_nil].
    destruct (read_catalog fs reference_locale); [|apply prefix_nil].
    rewrite stdout_exceptions_log.
    destruct (fs_exceptions fs); [done|apply prefix_nil..].
  - apply exit_status_raise. intros n ->.
    apply checks_result_raise in Hraise as [[msg [=]]|[[[=]|[=]]|[=]]].
Qed.

Lemma no_partial_report_witness :
  (run (example_fs (ExceptionsParsed ∅)) "en").1
  = Raise (KeyError "placeholders")
  ∧ stdout (run (example_fs (ExceptionsParsed ∅)) "en").2 = [].
Proof.
  assert ((main_checks (example_fs (ExceptionsParsed ∅)) "en" []).1
          = Raise (KeyError "placeholders")) as Hchecks
    by (vm_compute; reflexivity).
  destruct (no_partial_report (example_fs (ExceptionsParsed ∅)) "en"
              (KeyError "placeholders") Hchecks) as (Hrun & _ & _).
  split; [exact Hrun|vm_compute; reflexivity].
Defined.

(** X4. Once [argparse] has accepted the command line, whatever the tree
    under the base path and the reference locale are, the exit status of
    what [main] goes on to do is 0 or 1, and it is 0 exactly when the checks
    ended with an empty error list, that is, exactly when [main] returns
    without an exception.  (What [argparse] itself does with a command line
    it rejects, or with [--help], comes before and is not part of [run].) *)
Theorem exit_status_zero_or_one (fs : filesystem) (reference_locale : string) :
  (exit_status (run fs reference_locale).1 = 0%Z
   ∨ exit_status (run fs reference_locale).1 = 1%Z)
  ∧ (exit_status (run fs reference_locale).1 = 0%Z ↔
     (main_checks fs reference_locale []).1 = Ok [])
  ∧ (exit_status (run fs reference_locale).1 = 0%Z ↔
     (run fs reference_locale).1 = Ok ()).
Proof.
  rewrite main_checks_result, run_result.
  destruct (checks_result fs reference_locale) as [[|e0 errors]|e] eqn:Hres.
  - split_and!; [by left|done..].
  - split_and!; [by right|done..].
  - assert (exit_status (Raise e) = 1%Z) as Hstatus.
    { apply exit_status_raise. intros n ->.
      apply checks_result_raise in Hres as [[msg [=]]|[[[=]|[=]]|[=]]]. }
    rewrite Hstatus. split_and!; [by right|done..].
Qed.

(** ** Runs that reach the report *)

Section complete.
Implicit Types (fs : filesystem) (ref : pydict message).
Implicit Types (exceptions : gmap string (gmap string (gset string))).

Lemma read_catalog_catalog_of fs locale :
  well_formed_catalog fs locale →
  read_catalog fs locale = Ok (catalog_of fs locale).
Proof.
  intros [lm Hlm]%read_catalog_is_Ok. unfold catalog_of. by rewrite Hlm.
Qed.

(** With its [placeholders] entry, the loop over the locales appends the
    records of each locale in turn. *)
Lemma locales_records fs exceptions by_locale ref locales errors :
  NoDup (dict_keys ref) →
  exceptions !! "placeholders" = Some by_locale →
  (∀ l, l ∈ locales → well_formed_catalog fs l) →
  for_each locales
    (locale_errors fs exceptions (messages_with_placeholders ref)) errors
  = Ok (errors ++
        (locales ≫= λ l,
           locale_records (default ∅ (by_locale !! l)) ref
             (catalog_of fs l) l)).
Proof.
  intros Hnd Hexc. revert errors.
  induction locales as [|l locales IH]; intros errors Hwf.
  - by rewrite app_nil_r.
  - rewrite for_each_cons.
    rewrite (locale_errors_Ok _ _ _ _ _ _ _
               (read_catalog_catalog_of _ _ (Hwf l (list_elem_of_here _ _)))
               Hnd Hexc).
    change (Ok ?b ≫= ?f) with (f b). rewrite IH.
    + rewrite bind_cons. unfold locale_records. by rewrite <-!app_assoc.
    + intros l' Hl'. apply Hwf. by right.
Qed.

(** Without the entry, the loop goes through as long as no locale
    translates a message with placeholders, and appends the pilcrow records
    only. *)
Lemma locales_pilcrows fs exceptions (items : pydict (list string))
    locales errors :
  exceptions !! "placeholders" = None →
  (∀ l, l ∈ locales → well_formed_catalog fs l) →
  (∀ l k, l ∈ locales → k ∈ dict_keys items →
          k ∉ dict_keys (catalog_of fs l)) →
  for_each locales (locale_errors fs exceptions items) errors
  = Ok (errors ++
        (locales ≫= λ l, pilcrow_record l <$> pilcrow_hits (catalog_of fs l))).
Proof.
  intros Hnone. revert errors.
  induction locales as [|l locales IH]; intros errors Hwf Hnot.
  - by rewrite app_nil_r.
  - rewrite for_each_cons.
    assert (locale_errors fs exceptions items l errors
            = Ok (errors ++ (pilcrow_record l
                               <$> pilcrow_hits (catalog_of fs l)))) as ->.
    { unfold locale_errors.
      rewrite (read_catalog_catalog_of _ _ (Hwf l (list_elem_of_here _ _))).
      change (Ok ?b ≫= ?f) with (f b). cbn beta.
      rewrite (placeholder_loop_no_entry _ _ _ _ _ Hnone).
      rewrite decide_False.
      - change (Ok ?b ≫= ?f) with (f b). apply pilcrow_loop.
      - intros ([k phs] & Hin & Hmem)%Exists_exists.
        apply dict_mem_spec in Hmem.
        apply (Hnot l k); [by left| |done].
        apply list_elem_of_fmap. by exists (k, phs). }
    change (Ok ?b ≫= ?f) with (f b). rewrite IH.
    + by rewrite bind_cons, <-!app_assoc.
    + intros l' Hl'. apply Hwf. by right.
    + intros l' k Hl'. apply Hnot. by right.
Qed.
End complete.

(** X5. On a tree whose catalogs all load and whose exceptions file has
    its [placeholders] entry, the checks end with the records of the
    target locales in sorted order of the locales, for each locale the
    placeholder records in the order of the reference catalog, then the
    pilcrow records in the order of its own catalog; the script prints the
    report of that list and nothing else. *)
Theorem full_run (fs : filesystem) (reference_locale : string)
    (reference_messages : pydict message)
    (exceptions : gmap string (gmap string (gset string)))
    (by_locale : gmap string (gset string)) :
  fs_isdir fs reference_locale = true →
  read_catalog fs reference_locale = Ok reference_messages →
  fs_exceptions fs = ExceptionsParsed exceptions →
  exceptions !! "placeholders" = Some by_locale →
  (∀ l, l ∈ target_locales fs reference_locale → well_formed_catalog fs l) →
  let errors :=
    target_locales fs reference_locale ≫= λ l,
      ((λ hit, placeholder_error l hit.1 (text hit.2))
         <$> placeholder_hits (default ∅ (by_locale !! l))
               (catalog_of fs l) reference_messages)
      ++ ((λ hit, pilcrow_error l hit.1 (text hit.2))
            <$> pilcrow_hits (catalog_of fs l)) in
  (main_checks fs reference_locale []).1 = Ok errors
  ∧ stdout (run fs reference_locale).2
    = match errors with
      | [] => ["No errors found."]
      | _ :: _ => ["ERRORS:"; join nl errors]
      end
  ∧ (run fs reference_locale).1
    = match errors with
      | [] => Ok ()
      | _ :: _ => Raise (SystemExit (inr 1%Z))
      end.
Proof.
  intros Hdir Href Hfile Hexc Hwf errors.
  assert (checks_result fs reference_locale = Ok errors) as Hres.
  { unfold checks_result, loaded_exceptions. rewrite Hdir, Href, Hfile.
    change (Ok ?b ≫= ?f) with (f b). cbn beta.
    change (Ok ?b ≫= ?f) with (f b). cbn beta.
    by rewrite (locales_records _ _ _ _ _ _
                  (read_catalog_NoDup _ _ _ Href) Hexc Hwf). }
  rewrite main_checks_result, run_result, run_stdout, Hres.
  unfold warning_lines. rewrite Hdir, Href, stdout_exceptions_log, Hfile.
  split_and!; [done|by destruct errors..].
Qed.

Lemma full_run_witness :
  (main_checks (example_fs (ExceptionsParsed example_exceptions)) "en" []).1
  = Ok ["de:" +:+ nl +:+ "  '" +:+ pilcrow +:+ "' in greeting.json:hello"
          +:+ nl +:+ "  Text: Hallo, $name$!" +:+ pilcrow;
        "fr:" +:+ nl +:+ "  Placeholder mismatch in greeting.json:hello"
          +:+ nl +:+ "  Text: Bonjour, $nom$!";
        "it:" +:+ nl +:+ "  '" +:+ pilcrow +:+ "' in greeting.json:hello"
          +:+ nl +:+ "  Text: Ciao, $nome$!" +:+ pilcrow].
Proof.
  assert (∀ l, l ∈ target_locales (example_fs (ExceptionsParsed
                                                 example_exceptions)) "en" →
               well_formed_catalog
                 (example_fs (ExceptionsParsed example_exceptions)) l) as Hwf.
  { intros l Hl. apply read_catalog_is_Ok.
    change (l ∈ ["de"; "fr"; "it"]) in Hl.
    repeat (apply elem_of_cons in Hl as [->|Hl]);
      [eexists; vm_compute; reflexivity..|by apply elem_of_nil in Hl]. }
  destruct (full_run (example_fs (ExceptionsParsed example_exceptions)) "en"
              en_catalog example_exceptions example_by_locale
              eq_refl eq_refl eq_refl eq_refl Hwf) as (Hchecks & _ & _).
  rewrite Hchecks. vm_compute. reflexivity.
Defined.

(** X6. An exceptions mapping without its [placeholders] entry, as when
    the file is absent, does no harm as long as no target locale
    translates a reference message that declares placeholders: on a tree
    whose catalogs load, the checks end with the pilcrow records of the
    locales, and the script prints the warning, if the file is absent, and
    then the report. *)
Theorem missing_entry_harmless (fs : filesystem) (reference_locale : string)
    (reference_messages : pydict message)
    (exceptions : gmap string (gmap string (gset string))) :
  fs_isdir fs reference_locale = true →
  read_catalog fs reference_locale = Ok reference_messages →
  loaded_exceptions fs = Ok exceptions →
  exceptions !! "placeholders" = None →
  (∀ l, l ∈ target_locales fs reference_locale → well_formed_catalog fs l) →
  (∀ l k, l ∈ target_locales fs reference_locale →
          k ∈ dict_keys (messages_with_placeholders reference_messages) →
          k ∉ dict_keys (catalog_of fs l)) →
  let errors :=
    target_locales fs reference_locale ≫= λ l,
      (λ hit, pilcrow_error l hit.1 (text hit.2))
        <$> pilcrow_hits (catalog_of fs l) in
  (main_checks fs reference_locale []).1 = Ok errors
  ∧ stdout (run fs reference_locale).2
    = match fs_exceptions fs with
      | ExceptionsAbsent => [fs_exception_path fs +:+ " is missing"]
      | _ => []
      end
      ++ match errors with
         | [] => ["No errors found."]
         | _ :: _ => ["ERRORS:"; join nl errors]
         end.
Proof.
  intros Hdir Href Hfile Hnone Hwf Hnot errors.
  assert (checks_result fs reference_locale = Ok errors) as Hres.
  { unfold checks_result. rewrite Hdir, Href, Hfile.
    change (Ok ?b ≫= ?f) with (f b). cbn beta.
    change (Ok ?b ≫= ?f) with (f b). cbn beta.
    by rewrite (locales_pilcrows _ _ _ _ _ Hnone Hwf Hnot). }
  rewrite main_checks_result, run_stdout, Hres.
  unfold warning_lines. rewrite Hdir, Href, stdout_exceptions_log.
  split; [done|]. by destruct errors.
Qed.

Lemma missing_entry_harmless_witness :
  stdout (run (example_fs ExceptionsAbsent) "de").2
  = ["/repo/.github/scripts/check_exceptions.json is missing";
     "ERRORS:";
     "it:" +:+ nl +:+ "  '" +:+ pilcrow +:+ "' in greeting.json:hello"
       +:+ nl +:+ "  Text: Ciao, $nome$!" +:+ pilcrow].
Proof.
  assert (∀ l, l ∈ target_locales (example_fs ExceptionsAbsent) "de" →
               well_formed_catalog (example_fs ExceptionsAbsent) l) as Hwf.
  { intros l Hl. apply read_catalog_is_Ok.
    change (l ∈ ["en"; "fr"; "it"]) in Hl.
    repeat (apply elem_of_cons in Hl as [->|Hl]);
      [eexists; vm_compute; reflexivity..|by apply elem_of_nil in Hl]. }
  assert (∀ l k, l ∈ target_locales (example_fs ExceptionsAbsent) "de" →
                 k ∈ dict_keys (messages_with_placeholders
                                  [("greeting.json:hello",
                                    {| text := "Hallo, $name$!" +:+ pilcrow;
                                       placeholders := [] |})]) →
                 k ∉ dict_keys (catalog_of (example_fs ExceptionsAbsent) l))
    as Hnot by (by intros l k _ ?%elem_of_nil).
  destruct (missing_entry_harmless (example_fs ExceptionsAbsent) "de"
              _ ∅ eq_refl eq_refl eq_refl (lookup_empty _) Hwf Hnot)
    as (_ & Hout).
  rewrite Hout. vm_compute. reflexivity.
Defined.

(** ** More about the loader *)

Section loader_more.
Implicit Types (fs : filesystem) (d : pydict message) (tr : list event).

(** The entry at which storing stops. *)
Lemma assign_raise_entry es d e :
  for_each es assign d = Raise e →
  e = KeyError "message" ∧ ∃ entry, entry ∈ es ∧ md_message entry.2 = None.
Proof.
  revert d. induction es as [|entry es IH]; intros d; [done|].
  rewrite for_each_cons. destruct (assign entry d) as [d1|e1] eqn:Hentry.
  - change (Ok ?b ≫= ?f) with (f b). intros (He & entry' & Hin & Hnone)%IH.
    split; [done|]. exists entry'. split; [by right|done].
  - intros [= <-]. split; [by apply (assign_raise _ _ _ Hentry)|].
    exists entry. split; [by left|].
    unfold assign, message_of in Hentry.
    by destruct (md_message entry.2).
Qed.

(** The loop over the files, when it raises: the file that failed, the
    files loaded before it, and the log. *)
Lemma load_loop_raise fs locale files d tr e tr' :
  for_each files (λ file_id messages,
    json_data ← json_load fs locale file_id;
    lift (for_each json_data (store_message file_id) messages)) d tr
  = (Raise e, tr') →
  ∃ before f after d1,
    files = before ++ f :: after
    ∧ for_each before (load_file fs locale) d = Ok d1
    ∧ load_file fs locale f d1 = Raise e
    ∧ tr' = tr ++ (ELoad locale <$> before ++ [f]).
Proof.
  revert d tr. induction files as [|f files IH]; intros d tr; [done|].
  rewrite io_for_each_cons, load_step.
  destruct (load_file fs locale f d) as [d1|e1] eqn:Hf.
  - intros (before & f' & after & d2 & -> & Hbefore & Hf' & ->)%IH.
    exists (f :: before), f', after, d2. split_and!; [done| |done|].
    + by rewrite for_each_cons, Hf.
    + by rewrite <-app_assoc.
  - intros [= <- <-]. by exists [], f, files, d.
Qed.

Lemma dict_keys_set_prefix {V} k (v : V) (m : pydict V) :
  dict_keys m `prefix_of` dict_keys (dict_set k v m).
Proof.
  rewrite dict_keys_set. destruct (dict_mem k m); [done|].
  by apply prefix_app_r.
Qed.

Lemma assign_keys_prefix es d d' :
  for_each es assign d = Ok d' → dict_keys d `prefix_of` dict_keys d'.
Proof.
  apply (for_each_invariant (λ d', dict_keys d `prefix_of` dict_keys d'));
    [|done].
  intros entry d1 d2 _ (m & _ & ->)%assign_Ok_inv Hpre.
  etrans; [done|]. apply dict_keys_set_prefix.
Qed.

(** Storing entries with fresh, distinct keys appends them in order. *)
Lemma assign_fresh es d d' :
  for_each es assign d = Ok d' →
  NoDup (dict_keys d ++ es.*1) →
  ∃ items,
    d' = d ++ items
    ∧ Forall2 (λ entry item,
                 item.1 = entry.1 ∧ message_of entry.2 = Some item.2)
        es items.
Proof.
  revert d. induction es as [|entry es IH]; intros d.
  - intros [= <-] _. exists []. by rewrite app_nil_r.
  - rewrite for_each_cons. intros (d1 & H1 & Hrest)%bind_Ok_inv Hnd.
    apply assign_Ok_inv in H1 as (m & Hm & ->).
    rewrite fmap_cons in Hnd.
    apply NoDup_app in Hnd as (Hd & Hdis & [Hfresh Hes]%NoDup_cons).
    assert (entry.1 ∉ dict_keys d) as Hnew
      by (intros Hin; apply (Hdis _ Hin); left).
    rewrite (dict_set_fresh _ _ _ Hnew) in Hrest.
    destruct (IH _ Hrest) as (items & -> & Hitems).
    + unfold dict_keys. rewrite fmap_app, <-app_assoc. cbn [fmap list_fmap app].
      apply NoDup_app. split_and!; [done| |by apply NoDup_cons].
      intros k Hk Hk'. by apply (Hdis _ Hk).
    + exists ((entry.1, m) :: items). split; [by rewrite <-app_assoc|].
      by constructor.
Qed.

(** No reference message is translated by a locale without messages. *)
Lemma placeholder_loop_empty
    (exceptions : gmap string (gmap string (gset string))) locale
    (items : pydict (list string)) (errors : list string) :
  for_each items (check_placeholders exceptions locale []) errors = Ok errors.
Proof.
  induction items as [|[k phs] items IH]; [done|].
  by rewrite for_each_cons.
Qed.
End loader_more.

(** X7. When [parseJsonFiles] raises, the exception is the one that
    loading one file of the enumeration raised: the files before that file
    were loaded without exception, it is the last file opened, and the
    files after it are never opened. *)
Theorem loader_stops_at_first_bad_file (fs : filesystem)
    (messages : pydict message) (locale : string) (tr tr' : list event)
    (e : exn) :
  parseJsonFiles fs messages locale tr = (Raise e, tr') →
  ∃ before f after messages1,
    fs_glob fs locale = before ++ f :: after
    ∧ for_each before (load_file fs locale) messages = Ok messages1
    ∧ load_file fs locale f messages1 = Raise e
    ∧ tr' = tr ++ EGlob locale :: (ELoad locale <$> before ++ [f]).
Proof.
  unfold parseJsonFiles. rewrite io_bind_run, glob_json_run.
  intros (before & f & after & d1 & Hglob & Hbefore & Hf & ->)%load_loop_raise.
  exists before, f, after, d1. split_and!; [done..|by rewrite <-app_assoc].
Qed.

Lemma loader_stops_at_first_bad_file_witness :
  ∃ before f after,
    ["a.json"; "b.json"; "c.json"] = before ++ f :: after
    ∧ [EGlob "fr"; ELoad "fr" "a.json"; ELoad "fr" "b.json"]
      = [] ++ EGlob "fr" :: (ELoad "fr" <$> before ++ [f]).
Proof.
  destruct (loader_stops_at_first_bad_file broken_fs [] "fr" []
              [EGlob "fr"; ELoad "fr" "a.json"; ELoad "fr" "b.json"]
              (KeyError "message") eq_refl)
    as (before & f & after & _ & Hglob & _ & _ & Hlog).
  by exists before, f, after.
Defined.

(** X8. [parseJsonFiles] extends the dictionary it is given: the keys it
    finds there keep their places at the front, new keys come after them,
    the keys stay distinct, and a key that no entry of the locale's files
    is stored under keeps its message. *)
Theorem loader_extends_dictionary (fs : filesystem)
    (messages messages' : pydict message) (locale : string)
    (tr : list event) :
  (parseJsonFiles fs messages locale tr).1 = Ok messages' →
  dict_keys messages `prefix_of` dict_keys messages'
  ∧ (∀ k, k ∈ dict_keys messages' ↔
          k ∈ dict_keys messages ∨ k ∈ (stored fs locale).*1)
  ∧ (∀ k, k ∉ (stored fs locale).*1 →
          dict_get k messages' = dict_get k messages)
  ∧ (NoDup (dict_keys messages) → NoDup (dict_keys messages')).
Proof.
  destruct (parseJsonFiles_spec fs messages locale tr) as (opened & -> & _).
  cbn [fst]. intros Hload%load_files_entries.
  fold (stored fs locale) in Hload. split_and!.
  - by eapply assign_keys_prefix.
  - intros k. by apply (assign_keys _ _ _ _ Hload).
  - intros k. by apply (assign_get_other _ _ _ _ Hload).
  - by apply (assign_NoDup _ _ _ Hload).
Qed.

Lemma loader_extends_dictionary_witness :
  (parseJsonFiles (example_fs ExceptionsAbsent) en_catalog "fr" []).1
  = Ok fr_catalog
  ∧ (parseJsonFiles (example_fs ExceptionsAbsent) en_catalog "en" []).1
    = Ok en_catalog
  ∧ dict_keys en_catalog `prefix_of` dict_keys fr_catalog.
Proof.
  split_and!; [vm_compute; reflexivity..|].
  apply (loader_extends_dictionary (example_fs ExceptionsAbsent)
           en_catalog fr_catalog "fr" []).
  vm_compute. reflexivity.
Defined.

(** The pilcrow records of a catalog that lists the stored entries in
    order are those of the entries, in that order. *)
Lemma pilcrow_records_stored (locale : string)
    (es : list (string * message_data)) (items : pydict message) :
  Forall2 (λ entry item,
             item.1 = entry.1 ∧ message_of entry.2 = Some item.2) es items →
  pilcrow_record locale <$> pilcrow_hits items
  = omap (λ entry,
      match md_message entry.2 with
      | Some l10n_message =>
          if str_contains pilcrow l10n_message
          then Some (locale +:+ ":" +:+ nl +:+ "  '" +:+ pilcrow +:+ "' in "
                       +:+ entry.1 +:+ nl +:+ "  Text: " +:+ l10n_message)
          else None
      | None => None
      end) es.
Proof.
  induction 1 as [|[k data] [k' m] es items [Hkey Hm] _ IH]; [done|].
  cbn [fst snd] in *. subst k'. rewrite pilcrow_hits_cons. cbn [omap list_omap].
  cbn [fst snd]. unfold message_of in Hm.
  destruct (md_message data) as [l10n_message|]; [|done].
  cbn in Hm. simplify_eq. cbn [text].
  destruct (str_contains pilcrow l10n_message); [|done].
  rewrite fmap_cons. by f_equal.
Qed.

(** X9. When the composite keys met in the files of a locale are all
    different, the catalog lists the entries in the order the loader meets
    them, file after file in the order of the enumeration and, within a
    file, in the order of the file; and this is the order in which the
    pilcrow check reports: its loop, and the checks of the locale once the
    placeholder loop has ended, append the records of the entries whose
    message contains the pilcrow, in that order. *)
Theorem catalog_in_file_order (fs : filesystem) (locale : string)
    (catalog : pydict message) (tr : list event) :
  (parseJsonFiles fs [] locale tr).1 = Ok catalog →
  NoDup (stored fs locale).*1 →
  let reports :=
    omap (λ entry,
      match md_message entry.2 with
      | Some l10n_message =>
          if str_contains pilcrow l10n_message
          then Some (locale +:+ ":" +:+ nl +:+ "  '" +:+ pilcrow +:+ "' in "
                       +:+ entry.1 +:+ nl +:+ "  Text: " +:+ l10n_message)
          else None
      | None => None
      end) (stored fs locale) in
  dict_keys catalog = (stored fs locale).*1
  ∧ Forall2 (λ entry item,
               item.1 = entry.1 ∧ message_of entry.2 = Some item.2)
      (stored fs locale) catalog
  ∧ (∀ errors,
       for_each catalog (check_pilcrow locale) errors = Ok (errors ++ reports))
  ∧ (∀ (exceptions : gmap string (gmap string (gset string)))
       (with_placeholders : pydict (list string))
       (errors errors1 : list string) (tr1 : list event),
       for_each with_placeholders
         (check_placeholders exceptions locale catalog) errors = Ok errors1 →
       (check_locale fs exceptions with_placeholders locale errors tr1).1
       = Ok (errors1 ++ reports)).
Proof.
  destruct (parseJsonFiles_spec fs [] locale tr) as (opened & -> & _).
  cbn [fst]. fold (read_catalog fs locale). intros Hcatalog Hnd.
  set (reports := omap _ (stored fs locale)).
  pose proof (load_files_entries _ _ _ _ _ Hcatalog) as Hload.
  fold (stored fs locale) in Hload.
  destruct (assign_fresh _ _ _ Hload) as (items & Heq & Hitems); [done|].
  rewrite app_nil_l in Heq. subst items.
  assert (pilcrow_record locale <$> pilcrow_hits catalog = reports) as Hreports
    by apply (pilcrow_records_stored _ _ _ Hitems).
  split_and!.
  - unfold dict_keys. clear -Hitems.
    induction Hitems as [|entry item es items [Hkey _] _ IH]; [done|].
    rewrite !fmap_cons. by f_equal.
  - done.
  - intros errors. by rewrite pilcrow_loop, Hreports.
  - intros exceptions with_placeholders errors errors1 tr1 Hloop.
    rewrite check_locale_result. unfold locale_errors. rewrite Hcatalog.
    change (Ok ?b ≫= ?f) with (f b). cbn beta. rewrite Hloop.
    change (Ok ?b ≫= ?f) with (f b). by rewrite pilcrow_loop, Hreports.
Qed.

Lemma catalog_in_file_order_witness :
  dict_keys fr_catalog = ["greeting.json:hello"; "greeting.json:bye"]
  ∧ for_each it_catalog (check_pilcrow "it") []
    = Ok ["it:" +:+ nl +:+ "  '" +:+ pilcrow +:+ "' in greeting.json:hello"
            +:+ nl +:+ "  Text: Ciao, $nome$!" +:+ pilcrow].
Proof.
  assert (NoDup (stored (example_fs ExceptionsAbsent) "fr").*1) as Hfr
    by (apply (bool_decide_unpack _); vm_compute; exact I).
  assert (NoDup (stored (example_fs ExceptionsAbsent) "it").*1) as Hit
    by (apply (bool_decide_unpack _); vm_compute; exact I).
  destruct (catalog_in_file_order (example_fs ExceptionsAbsent) "fr"
              fr_catalog [] eq_refl Hfr) as (Hkeys & _).
  destruct (catalog_in_file_order (example_fs ExceptionsAbsent) "it"
              it_catalog [] eq_refl Hit) as (_ & _ & Hloop & _).
  split; [exact Hkeys|].
  rewrite Hloop. vm_compute. reflexivity.
Defined.

(** X10. A locale whose folder holds no catalog file is enumerated and
    nothing more: its checks leave the error list as it was and raise
    nothing, whatever the exceptions mapping and the reference messages
    are. *)
Theorem empty_locale_contributes_nothing (fs : filesystem)
    (exceptions : gmap string (gmap string (gset string)))
    (with_placeholders : pydict (list string)) (locale : string)
    (errors : list string) (tr : list event) :
  fs_glob fs locale = [] →
  check_locale fs exceptions with_placeholders locale errors tr
  = (Ok errors, tr ++ [EGlob locale]).
Proof.
  intros Hglob.
  destruct (check_locale_spec fs exceptions with_placeholders locale errors tr)
    as (opened & -> & Hpre & _).
  rewrite Hglob in Hpre. apply prefix_nil_inv in Hpre as ->.
  unfold locale_errors, read_catalog. rewrite Hglob.
  change (for_each [] ?f ?s) with (Ok s : result (pydict message)).
  change (Ok ?b ≫= ?f) with (f b). cbn beta.
  rewrite placeholder_loop_empty. reflexivity.
Qed.

Lemma empty_locale_contributes_nothing_witness :
  check_locale (example_fs ExceptionsAbsent) ∅
    (messages_with_placeholders en_catalog) ".git" [] []
  = (Ok [], [EGlob ".git"]).
Proof.
  exact (empty_locale_contributes_nothing (example_fs ExceptionsAbsent) ∅
           (messages_with_placeholders en_catalog) ".git" [] [] eq_refl).
Defined.

(** ** More about the pattern *)

Section pattern_more.
Implicit Types (s name rest : string).

Lemma count_dollar_app s1 s2 :
  count_dollar (s1 +:+ s2) = count_dollar s1 + count_dollar s2.
Proof.
  induction s1 as [|c s1 IH]; [done|].
  rewrite str_app_cons. cbn [count_dollar]. rewrite IH. lia.
Qed.

Lemma name_char_not_dollar c : is_name_char c → Ascii.eqb c "$" = false.
Proof.
  destruct (Ascii.eqb_spec c "$") as [->|]; [|done].
  by rewrite dollar_not_name_char.
Qed.

Lemma Name_count_dollar name : Name name → count_dollar name = 0.
Proof.
  induction 1 as [c Hc|c name Hc _ IH]; cbn [count_dollar];
    rewrite (name_char_not_dollar _ Hc); [done|]. by rewrite IH.
Qed.

Lemma Match_count_dollar s name rest :
  Match s name rest → count_dollar s = 2 + count_dollar rest.
Proof.
  destruct 1 as [name rest Hname].
  rewrite !count_dollar_app, (Name_count_dollar _ Hname). reflexivity.
Qed.

Lemma Match_width s name rest :
  Match s name rest →
  String.length s = token_width name + String.length rest.
Proof.
  destruct 1 as [name rest Hname]. unfold token_width.
  rewrite !str_length_app. simpl. lia.
Qed.

(** A text without [$] cannot begin with a token. *)
Lemma match_here_plain c s :
  Ascii.eqb c "$" = false → match_here (String c s) = None.
Proof. unfold match_here. by intros ->. Qed.

Lemma errors_grow (errors : list string) (e : string) :
  errors ++ [e] ≠ errors.
Proof.
  intros Heq%(f_equal length). rewrite length_app in Heq. simpl in Heq. lia.
Qed.
End pattern_more.

(** X11. The tokens [findall] returns are non-empty runs of characters of
    the class, so they hold no [$]; they do not overlap: each takes two
    [$] of the text of its own, and the tokens with their delimiters fit
    in the text side by side. *)
Theorem tokens_are_disjoint_names (s : string) :
  Forall (λ name, Name name ∧ count_dollar name = 0) (findall s)
  ∧ 2 * length (findall s) ≤ count_dollar s
  ∧ sum_list_with token_width (findall s) ≤ String.length s.
Proof.
  pose proof (findall_Tokens s) as Htokens.
  induction Htokens as [|s name rest l Hm _ (IH1 & IH2 & IH3)
                         |c s l _ _ (IH1 & IH2 & IH3)].
  - split_and!; [constructor|done..].
  - split_and!.
    + constructor; [|done]. destruct Hm as [name rest Hname].
      split; [done|by apply Name_count_dollar].
    + rewrite (Match_count_dollar _ _ _ Hm). simpl. lia.
    + rewrite (Match_width _ _ _ Hm). simpl. lia.
  - split_and!; [done|..].
    + cbn [count_dollar]. lia.
    + simpl. lia.
Qed.

(** X12. Text without [$] holds no token, and in front of a token it does
    not change what [findall] returns: the token that follows it is
    returned first, with its name as written, and the search goes on after
    the closing [$]. *)
Theorem findall_after_plain_text (before name after : string) :
  count_dollar before = 0 →
  Name name →
  findall before = []
  ∧ findall (before +:+ "$" +:+ name +:+ "$" +:+ after)
    = name :: findall after.
Proof.
  intros Hplain Hname. split.
  - induction before as [|c before IH]; [done|].
    cbn [count_dollar] in Hplain.
    destruct (Ascii.eqb c "$") eqn:Hc; [done|].
    rewrite (findall_skip _ _ (match_here_plain _ _ Hc)). by apply IH.
  - induction before as [|c before IH].
    + rewrite str_app_nil_l. by apply findall_match, Match_intro.
    + cbn [count_dollar] in Hplain.
      destruct (Ascii.eqb c "$") eqn:Hc; [done|].
      rewrite str_app_cons, (findall_skip _ _ (match_here_plain _ _ Hc)).
      by apply IH.
Qed.

Lemma findall_after_plain_text_witness :
  findall "Hello, " = [] ∧ findall "Hello, $Name$! $x" = ["Name"].
Proof.
  assert (Name "Name") as Hname by (repeat constructor).
  exact (findall_after_plain_text "Hello, " "Name" "! $x" eq_refl Hname).
Defined.

(** X13. The placeholders declared for a message are the keys of an
    object, hence distinct.  For a translated message that is not listed
    as an exception, the placeholder check then leaves the error list as it
    is exactly when the tokens of the translation are distinct and are the
    declared placeholders as a set: a translation that uses a declared
    placeholder twice is reported, like one that drops or adds one. *)
Theorem repeated_placeholder_reported
    (exceptions : gmap string (gmap string (gset string)))
    (by_locale : gmap string (gset string)) (locale : string)
    (lm : pydict message) (k : string) (phs : list string) (m : message)
    (errors : list string) :
  exceptions !! "placeholders" = Some by_locale →
  dict_get k lm = Some m →
  k ∉ default ∅ (by_locale !! locale) →
  NoDup phs →
  (check_placeholders exceptions locale lm (k, phs) errors = Ok errors ↔
     NoDup (findall (text m)) ∧ ∀ x, x ∈ phs ↔ x ∈ findall (text m))
  ∧ (check_placeholders exceptions locale lm (k, phs) errors
     = Ok (errors ++ [placeholder_error locale k (text m)]) ↔
     ¬ (NoDup (findall (text m)) ∧ ∀ x, x ∈ phs ↔ x ∈ findall (text m))).
Proof.
  intros Hexc Hm Hk Hnd.
  rewrite (check_placeholders_step _ _ _ _ _ _ _ Hexc), Hm.
  assert (phs ≡ₚ findall (text m) ↔
          NoDup (findall (text m)) ∧ ∀ x, x ∈ phs ↔ x ∈ findall (text m))
    as Hperm.
  { split.
    - intros Hp. split; [by rewrite <-Hp|]. intros x. by rewrite Hp.
    - intros [Hnd' Hset]. by apply NoDup_Permutation. }
  rewrite <-Hperm.
  destruct (decide (phs ≡ₚ findall (text m))) as [Hp|Hp].
  - rewrite decide_False by tauto. rewrite app_nil_r. split.
    + by split.
    + split; [|done]. intros [= Heq]. symmetry in Heq.
      by apply errors_grow in Heq.
  - rewrite decide_True by done. split.
    + split; [|done]. intros [= Heq]. by apply errors_grow in Heq.
    + by split.
Qed.

Lemma repeated_placeholder_reported_witness :
  check_placeholders example_exceptions "fr"
    [("greeting.json:hello",
      {| text := "$name$, bonjour $name$!"; placeholders := [] |})]
    ("greeting.json:hello", ["name"]) []
  = Ok ["fr:" +:+ nl +:+ "  Placeholder mismatch in greeting.json:hello"
          +:+ nl +:+ "  Text: $name$, bonjour $name$!"].
Proof.
  assert ("greeting.json:hello" ∉ default (∅ : gset string)
                                     (example_by_locale !! "fr")) as Hk
    by (apply (bool_decide_unpack _); vm_compute; exact I).
  assert (NoDup ["name"]) as Hnd
    by (apply (bool_decide_unpack _); vm_compute; exact I).
  apply (proj2 (repeated_placeholder_reported example_exceptions
                  example_by_locale "fr"
                  [("greeting.json:hello",
                    {| text := "$name$, bonjour $name$!";
                       placeholders := [] |})]
                  "greeting.json:hello" ["name"]
                  {| text := "$name$, bonjour $name$!"; placeholders := [] |}
                  [] eq_refl eq_refl Hk Hnd)).
  intros [Hdup _]. revert Hdup. apply (bool_decide_unpack _).
  vm_compute. exact I.
Defined.

(** ** Whom the records are about *)

Section about.
Implicit Types (fs : filesystem) (errors : list string).

Lemma placeholder_error_record_of locale k l10n_message :
  record_of locale (placeholder_error locale k l10n_message).
Proof.
  exists ("Placeholder mismatch in " +:+ k), l10n_message.
  unfold placeholder_error. by rewrite !str_app_assoc.
Qed.

Lemma pilcrow_error_record_of locale k l10n_message :
  record_of locale (pilcrow_error locale k l10n_message).
Proof.
  exists ("'" +:+ pilcrow +:+ "' in " +:+ k), l10n_message.
  unfold pilcrow_error. by rewrite !str_app_assoc.
Qed.

(** The checks of a locale only append records about that locale. *)
Lemma locale_errors_about fs
    (exceptions : gmap string (gmap string (gset string)))
    (items : pydict (list string)) locale errors errors' :
  locale_errors fs exceptions items locale errors = Ok errors' →
  ∃ new, errors' = errors ++ new ∧ Forall (record_of locale) new.
Proof.
  unfold locale_errors.
  intros (lm & _ & (errors1 & H1 & H2)%bind_Ok_inv)%bind_Ok_inv.
  eapply (for_each_invariant
            (λ es, ∃ new, es = errors ++ new ∧ Forall (record_of locale) new));
    [| |exact H2].
  - intros [k m] es es' _ Hstep (new & -> & Hnew).
    rewrite check_pilcrow_step in Hstep. simplify_eq.
    destruct (str_contains pilcrow (text m)).
    + exists (new ++ [pilcrow_error locale k (text m)]).
      split; [by rewrite app_assoc|]. apply Forall_app. split; [done|].
      repeat constructor. apply pilcrow_error_record_of.
    + exists new. by rewrite app_nil_r.
  - eapply (for_each_invariant
              (λ es, ∃ new, es = errors ++ new
                            ∧ Forall (record_of locale) new));
      [| |exact H1].
    + intros [k phs] es es' _ Hstep (new & -> & Hnew).
      unfold check_placeholders in Hstep.
      destruct (negb (dict_mem k lm)); [simplify_eq; by exists new|].
      apply bind_Ok_inv in Hstep as ([] & _ & Hstep);
        [simplify_eq; by exists new|].
      destruct (dict_get k lm) as [m|]; [|done].
      case_bool_decide; simplify_eq; [|by exists new].
      exists (new ++ [placeholder_error locale k (text m)]).
      split; [by rewrite app_assoc|]. apply Forall_app. split; [done|].
      repeat constructor. apply placeholder_error_record_of.
    + exists []. by rewrite app_nil_r.
Qed.
End about.

(** X14. Every record the checks collect is about a target locale: it
    begins with the name of a subfolder of the base path that is not
    hidden and is not the reference locale.  The reference catalog itself
    is never reported, not even for a pilcrow in its texts. *)
Theorem records_are_about_target_locales (fs : filesystem)
    (reference_locale : string) (errors : list string) :
  (main_checks fs reference_locale []).1 = Ok errors →
  Forall (λ e, ∃ locale,
            record_of locale e
            ∧ locale ∈ fs_subdirs fs
            ∧ ¬ (∃ rest, locale = "." +:+ rest)
            ∧ locale ≠ reference_locale) errors.
Proof.
  rewrite main_checks_result. unfold checks_result.
  destruct (fs_isdir fs reference_locale); [|done].
  intros (reference_messages & _
          & (exceptions & _ & Hloop)%bind_Ok_inv)%bind_Ok_inv.
  eapply (for_each_invariant (Forall _)); [|constructor|exact Hloop].
  intros locale es es' Hlocale (new & -> & Hnew)%locale_errors_about Hes.
  apply Forall_app. split; [done|].
  eapply Forall_impl; [exact Hnew|].
  intros e He. exists locale. split; [done|].
  unfold target_locales in Hlocale.
  rewrite sorted_Permutation in Hlocale.
  by apply elem_of_select_locales in Hlocale.
Qed.

Lemma records_are_about_target_locales_witness :
  Forall (λ e, ∃ locale,
            record_of locale e
            ∧ locale ∈ ["it"; "fr"; ".git"; "en"; "de"]
            ∧ ¬ (∃ rest, locale = "." +:+ rest)
            ∧ locale ≠ "en")
    ["de:" +:+ nl +:+ "  '" +:+ pilcrow +:+ "' in greeting.json:hello"
       +:+ nl +:+ "  Text: Hallo, $name$!" +:+ pilcrow;
     "fr:" +:+ nl +:+ "  Placeholder mismatch in greeting.json:hello"
       +:+ nl +:+ "  Text: Bonjour, $nom$!";
     "it:" +:+ nl +:+ "  '" +:+ pilcrow +:+ "' in greeting.json:hello"
       +:+ nl +:+ "  Text: Ciao, $nome$!" +:+ pilcrow].
Proof.
  apply (records_are_about_target_locales
           (example_fs (ExceptionsParsed example_exceptions)) "en").
  vm_compute. reflexivity.
Defined.
